(** * The ghcrawler worker engine: crawler pipeline, processor and loop supervisor

    A shallow embedding of [lib/crawler.js] (the queue-set revision of the
    [Crawler] class), of [lib/processor.js] and of the [CrawlerService] /
    [CrawlerLoop] supervisor, together with the properties the engine's
    specification states about them.

    Conventions.
    - A JavaScript value that the engine treats as an opaque JSON tree is a
      [Json].  Objects used as dictionaries ([context], [meta], [_metadata])
      are [gmap string Json].
    - A promise is a computation over the single in-flight request object and
      the trace of calls made to the external collaborators; it settles as
      [Fulfilled] or [Rejected].  A function that throws is a computation that
      settles as [Rejected]: every call site in the source sits inside a
      promise chain ([Q.try], [then]) that turns a throw into a rejection.
    - The collaborators (queue set, lock service, fetcher, store, clock) are
      oracles: their answer may depend on the arguments and on the trace so
      far.  Every call to one of them appends an [Event] to the trace.
    - Logging never fails; the [log] trace wrapper of the crawler is the
      identity ([options.promiseTrace] unset). *)

From Stdlib Require Import ZArith String Ascii List Bool Lia Permutation.
From stdpp Require Import gmap strings pretty.
Import ListNotations.

Local Open Scope Z_scope.
Set Warnings "-register-all".

(** ** JavaScript values *)

Inductive Json : Type :=
| JUndefined
| JNull
| JBool (b : bool)
| JNum (n : Z)
| JStr (s : string)
| JArr (xs : list Json)
| JObj (fields : list (string * Json)).

(** JavaScript truthiness, as used by [!x] and [x || d]. *)
Definition truthy (v : Json) : bool :=
  match v with
  | JUndefined | JNull => false
  | JBool b => b
  | JNum n => negb (n =? 0)
  | JStr s => negb (String.eqb s "")
  | JArr _ | JObj _ => true
  end.

(** A string-valued property that may be absent ([null] / [undefined]). *)
Definition truthy_str (o : option string) : bool :=
  match o with
  | Some s => negb (String.eqb s "")
  | None => false
  end.

(** [n || d] on a number-valued property that may be absent. *)
Definition num_or (o : option Z) (d : Z) : Z :=
  match o with
  | Some n => if n =? 0 then d else n
  | None => d
  end.

(** Template-literal rendering of a possibly absent string. *)
Definition show (o : option string) : string := default "null" o.

(** [Array.isArray]. *)
Definition isArray (v : Json) : bool :=
  match v with JArr _ => true | _ => false end.

(** Template-literal rendering of a value. *)
Fixpoint render (v : Json) : string :=
  match v with
  | JUndefined => "undefined"
  | JNull => "null"
  | JBool true => "true"
  | JBool false => "false"
  | JNum n => pretty n
  | JStr s => s
  | JArr xs =>
      String.concat ","
        (map (fun x => match x with
                       | JUndefined | JNull => EmptyString
                       | _ => render x
                       end) xs)
  | JObj _ => "[object Object]"
  end.

Fixpoint assoc (k : string) (fields : list (string * Json)) : option Json :=
  match fields with
  | [] => None
  | (k', v) :: rest => if String.eqb k k' then Some v else assoc k rest
  end.

Definition opt_json (o : option string) : Json :=
  match o with Some s => JStr s | None => JNull end.

(** An [Error] object. *)
Record Error : Type := { error_message : string }.

Definition TypeError (what : string) : Error := {| error_message := what |}.

(** The state a promise settles in. *)
Inductive Settled (A : Type) : Type :=
| Fulfilled (a : A)
| Rejected (e : Error).
Arguments Fulfilled {A} a.
Arguments Rejected {A} e.

Definition isFulfilled {A} (s : Settled A) : bool :=
  match s with Fulfilled _ => true | Rejected _ => false end.

(** [Q.all] over handles whose settlement is known: the first rejection wins. *)
Fixpoint Q_all (ps : list (Settled unit)) : Settled unit :=
  match ps with
  | [] => Fulfilled tt
  | Fulfilled _ :: ps' => Q_all ps'
  | Rejected e :: _ => Rejected e
  end.

(** Property access [v.k]: it throws on [null] and [undefined]. *)
Definition prop (k : string) (v : Json) : Settled Json :=
  match v with
  | JUndefined | JNull =>
      Rejected (TypeError ("Cannot read property '" +:+ k +:+ "' of " +:+ render v))
  | JObj fields => Fulfilled (default JUndefined (assoc k fields))
  | _ => Fulfilled JUndefined
  end.

(** ** Documents and responses *)

Record Document : Type := {
  body : Json;
  _metadata : option (gmap string Json)
}.

Record Headers : Type := {
  etag : option string;
  link : option string
}.

Record Response : Type := {
  headers : option Headers;
  _metadataTemplate : gmap string Json
}.

(** [request.message]: a free-text reason or a captured [Error]. *)
Inductive Message : Type :=
| NoMessage
| Text (s : string)
| Caught (e : Error).

Inductive Control : Type := skip | requeue.

Inductive Level : Type := silly | verbose | info | warn | error.

(** The context a worker loop runs in: the [options] object of a
    [CrawlerLoop].  [hasDone] says whether a [done] callback is installed;
    the callback itself does not throw. *)
Record LoopContext : Type := {
  name : string;
  delay : Z;
  currentDelay : option Z;
  hasDone : bool
}.

(** Modelled from the spec: the traversal policy of section 4.9 is an object
    attached to a request when it is created and carried along unchanged.  It
    is either the policy a new request starts with or one described by
    opaque data; what it answers is asked of the collaborators below. *)
Inductive Policy : Type :=
| DefaultPolicy
| TraversalPolicy (description : Json).

(** ** Requests *)

(** Modelled from the spec: the [Request] class ([lib/request.js]) is not part
    of the sources; the record follows the attributes of section 3 (Request),
    plus [upsert], which [_storeDocument] attaches, and [processControl], the
    skip / requeue mark that [shouldSkip] and [shouldRequeue] read.  The
    back-reference [request.crawler] is left out: the crawler is passed
    explicitly. *)
Record Request : Type := {
  type : option string;
  url : option string;
  context : option (gmap string Json);
  policy : Policy;
  attemptCount : option Z;
  document : option Document;
  response : option Response;
  outcome : option string;
  message : Message;
  processControl : option Control;
  meta : gmap string Json;
  promises : list (Settled unit);
  lock : Json;
  start : option Z;
  loopName : option string;
  nextRequestTime : option Z;
  upsert : option Json
}.

Definition set_context (v : option (gmap string Json)) (r : Request) : Request :=
  {| type := type r; url := url r; context := v; policy := policy r;
     attemptCount := attemptCount r; document := document r;
     response := response r; outcome := outcome r;
     message := message r; processControl := processControl r;
     meta := meta r; promises := promises r;
     lock := lock r; start := start r;
     loopName := loopName r; nextRequestTime := nextRequestTime r;
     upsert := upsert r |}.

Definition set_attemptCount (v : option Z) (r : Request) : Request :=
  {| type := type r; url := url r; context := context r; policy := policy r;
     attemptCount := v; document := document r;
     response := response r; outcome := outcome r;
     message := message r; processControl := processControl r;
     meta := meta r; promises := promises r;
     lock := lock r; start := start r;
     loopName := loopName r; nextRequestTime := nextRequestTime r;
     upsert := upsert r |}.

Definition set_document (v : option Document) (r : Request) : Request :=
  {| type := type r; url := url r; context := context r; policy := policy r;
     attemptCount := attemptCount r; document := v;
     response := response r; outcome := outcome r;
     message := message r; processControl := processControl r;
     meta := meta r; promises := promises r;
     lock := lock r; start := start r;
     loopName := loopName r; nextRequestTime := nextRequestTime r;
     upsert := upsert r |}.

Definition set_outcome (v : option string) (r : Request) : Request :=
  {| type := type r; url := url r; context := context r; policy := policy r;
     attemptCount := attemptCount r; document := document r;
     response := response r; outcome := v;
     message := message r; processControl := processControl r;
     meta := meta r; promises := promises r;
     lock := lock r; start := start r;
     loopName := loopName r; nextRequestTime := nextRequestTime r;
     upsert := upsert r |}.

Definition set_message (v : Message) (r : Request) : Request :=
  {| type := type r; url := url r; context := context r; policy := policy r;
     attemptCount := attemptCount r; document := document r;
     response := response r; outcome := outcome r;
     message := v; processControl := processControl r;
     meta := meta r; promises := promises r;
     lock := lock r; start := start r;
     loopName := loopName r; nextRequestTime := nextRequestTime r;
     upsert := upsert r |}.

Definition set_processControl (v : option Control) (r : Request) : Request :=
  {| type := type r; url := url r; context := context r; policy := policy r;
     attemptCount := attemptCount r; document := document r;
     response := response r; outcome := outcome r;
     message := message r; processControl := v; meta := meta r; promises := promises r;
     lock := lock r; start := start r;
     loopName := loopName r; nextRequestTime := nextRequestTime r;
     upsert := upsert r |}.

Definition set_meta (v : gmap string Json) (r : Request) : Request :=
  {| type := type r; url := url r; context := context r; policy := policy r;
     attemptCount := attemptCount r; document := document r;
     response := response r; outcome := outcome r;
     message := message r; processControl := processControl r;
     meta := v; promises := promises r;
     lock := lock r; start := start r;
     loopName := loopName r; nextRequestTime := nextRequestTime r;
     upsert := upsert r |}.

Definition set_promises (v : list (Settled unit)) (r : Request) : Request :=
  {| type := type r; url := url r; context := context r; policy := policy r;
     attemptCount := attemptCount r; document := document r;
     response := response r; outcome := outcome r;
     message := message r; processControl := processControl r;
     meta := meta r; promises := v;
     lock := lock r; start := start r;
     loopName := loopName r; nextRequestTime := nextRequestTime r;
     upsert := upsert r |}.

Definition set_lock (v : Json) (r : Request) : Request :=
  {| type := type r; url := url r; context := context r; policy := policy r;
     attemptCount := attemptCount r; document := document r;
     response := response r; outcome := outcome r;
     message := message r; processControl := processControl r;
     meta := meta r; promises := promises r;
     lock := v; start := start r;
     loopName := loopName r; nextRequestTime := nextRequestTime r;
     upsert := upsert r |}.

Definition set_start (v : option Z) (r : Request) : Request :=
  {| type := type r; url := url r; context := context r; policy := policy r;
     attemptCount := attemptCount r; document := document r;
     response := response r; outcome := outcome r;
     message := message r; processControl := processControl r;
     meta := meta r; promises := promises r;
     lock := lock r; start := v;
     loopName := loopName r; nextRequestTime := nextRequestTime r;
     upsert := upsert r |}.

Definition set_loopName (v : option string) (r : Request) : Request :=
  {| type := type r; url := url r; context := context r; policy := policy r;
     attemptCount := attemptCount r; document := document r;
     response := response r; outcome := outcome r;
     message := message r; processControl := processControl r;
     meta := meta r; promises := promises r;
     lock := lock r; start := start r;
     loopName := v; nextRequestTime := nextRequestTime r;
     upsert := upsert r |}.

Definition set_nextRequestTime (v : option Z) (r : Request) : Request :=
  {| type := type r; url := url r; context := context r; policy := policy r;
     attemptCount := attemptCount r; document := document r;
     response := response r; outcome := outcome r;
     message := message r; processControl := processControl r;
     meta := meta r; promises := promises r;
     lock := lock r; start := start r; loopName := loopName r; nextRequestTime := v;
     upsert := upsert r |}.

Definition set_upsert (v : option Json) (r : Request) : Request :=
  {| type := type r; url := url r; context := context r; policy := policy r;
     attemptCount := attemptCount r; document := document r;
     response := response r; outcome := outcome r;
     message := message r; processControl := processControl r;
     meta := meta r; promises := promises r;
     lock := lock r; start := start r;
     loopName := loopName r; nextRequestTime := nextRequestTime r;
     upsert := v |}.

Definition set_response (v : option Response) (r : Request) : Request :=
  {| type := type r; url := url r; context := context r; policy := policy r;
     attemptCount := attemptCount r; document := document r;
     response := v; outcome := outcome r;
     message := message r; processControl := processControl r;
     meta := meta r; promises := promises r;
     lock := lock r; start := start r;
     loopName := loopName r; nextRequestTime := nextRequestTime r;
     upsert := upsert r |}.

Definition set_policy (v : Policy) (r : Request) : Request :=
  {| type := type r; url := url r; context := context r; policy := v;
     attemptCount := attemptCount r; document := document r;
     response := response r; outcome := outcome r;
     message := message r; processControl := processControl r;
     meta := meta r; promises := promises r;
     lock := lock r; start := start r;
     loopName := loopName r; nextRequestTime := nextRequestTime r;
     upsert := upsert r |}.

(** Modelled from the spec: the [Request] constructor.  A new request has the
    identity it is given, the default policy ("policies are attached when a
    Request is created") and nothing else: no attempt count, no document, no
    lease, no pending promises. *)
Definition new_Request (ty : option string) (u : option string)
    (ctx : option (gmap string Json)) : Request :=
  {| type := ty; url := u; context := ctx; policy := DefaultPolicy;
     attemptCount := None; document := None; response := None;
     outcome := None; message := NoMessage; processControl := None;
     meta := ∅; promises := []; lock := JUndefined; start := None;
     loopName := None; nextRequestTime := None; upsert := None |}.

(** Modelled from the spec: [markSkip] and [markRequeue] set the control mark
    with its outcome and reason ("mark the request Skip/...",
    "Requeue/..."). *)
Definition markSkip (o : string) (m : Message) (r : Request) : Request :=
  set_message m (set_outcome (Some o) (set_processControl (Some skip) r)).

Definition markRequeue (o : string) (m : Message) (r : Request) : Request :=
  set_message m (set_outcome (Some o) (set_processControl (Some requeue) r)).

(** Modelled from the spec: later stages pass a request through when it is
    marked either way; only a requeue mark routes it to the requeue path. *)
Definition shouldSkip (r : Request) : bool :=
  match processControl r with Some _ => true | None => false end.

Definition shouldRequeue (r : Request) : bool :=
  match processControl r with Some requeue => true | _ => false end.

(** Modelled from the spec: [addMeta] merges counters into the accumulator;
    a key given again is overwritten. *)
Definition addMeta (data : gmap string Json) (r : Request) : Request :=
  set_meta (data ∪ meta r) r.

(** Modelled from the spec: [delay] sets the earliest time at which the loop
    may dequeue its next request. *)
Definition Request_delay (now ms : Z) (r : Request) : Request :=
  set_nextRequestTime (Some (now + ms)) r.

(** Modelled from the spec: [track] adds a side-effect handle to the promises
    that must complete before the request is acknowledged. *)
Definition track (p : Settled unit) (r : Request) : Request :=
  set_promises (promises r ++ [p]) r.

(** ** Events: the calls made to the collaborators *)

Inductive Event : Type :=
| EPop
| EPush (requests : list Request) (queue : string)
| ERepush (original queuable : Request)
| EDone (request : Request)
| EAbandon (request : Request)
| EPushDead (queuable : Request)
| ELock (target : string) (ttl : Z)
| EUnlock (lease : Json)
| EFetch (request : Request)
| EUpsert (doc : option Document)
| ELog (level : Level) (text : string)
| EConsole (text : string).

Definition Trace : Type := list Event.

(** ** Promises over the in-flight request *)

Definition Heap : Type := (Request * Trace)%type.

Definition Promise (A : Type) : Type := Heap -> Settled A * Heap.

Definition Q {A} (a : A) : Promise A := fun h => (Fulfilled a, h).

Definition throw {A} (e : Error) : Promise A := fun h => (Rejected e, h).

(** [p.then(f, g)] *)
Definition then2 {A B} (p : Promise A) (f : A -> Promise B)
    (g : Error -> Promise B) : Promise B :=
  fun h => match p h with
           | (Fulfilled a, h') => f a h'
           | (Rejected e, h') => g e h'
           end.

(** [p.then(f)] *)
Definition then_ {A B} (p : Promise A) (f : A -> Promise B) : Promise B :=
  then2 p f throw.

(** [p.catch(g)] *)
Definition catch {A} (p : Promise A) (g : Error -> Promise A) : Promise A :=
  then2 p Q g.

(** [p.finally(cb)]: [cb] runs either way; the settlement of [p] is kept
    unless [cb] itself rejects. *)
Definition finally {A B} (p : Promise A) (cb : Promise B) : Promise A :=
  fun h => let (s, h') := p h in
           match cb h' with
           | (Fulfilled _, h'') => (s, h'')
           | (Rejected e, h'') => (Rejected e, h'')
           end.

(** Sequencing with [then] gives the monadic notation [x ← p; q]. *)
#[local] Instance Promise_ret : MRet Promise := @Q.
#[local] Instance Promise_bind : MBind Promise := fun A B f p => then_ p f.

(** Reading and mutating the request object. *)
Definition this_request : Promise Request := fun h => (Fulfilled (fst h), h).

Definition mutate (f : Request -> Request) : Promise unit :=
  fun h => (Fulfilled tt, (f (fst h), snd h)).

(** A call to a collaborator: the event is recorded at the call, the oracle
    sees the trace before it. *)
Definition call {A} (ev : Event) (oracle : Trace -> Settled A) : Promise A :=
  fun h => (oracle (snd h), (fst h, snd h ++ [ev])).

(** A call that is handed the request object itself: the collaborator may
    write to it before it settles, so the request is what the call left of
    it, whether it fulfilled or rejected. *)
Definition callOn (ev : Event) (oracle : Trace -> Settled unit * Request)
    : Promise unit :=
  fun h => let (s, request) := oracle (snd h) in (s, (request, snd h ++ [ev])).

Definition log (lv : Level) (text : string) : Promise unit :=
  fun h => (Fulfilled tt, (fst h, snd h ++ [ELog lv text])).

Definition currentTrace : Promise Trace := fun h => (Fulfilled (snd h), h).

(** A synchronous value that may have thrown. *)
Definition settle {A} (s : Settled A) : Promise A := fun h => (s, h).

(** A computation that only talks to the collaborators. *)
Definition onTrace {A} (f : Trace -> Settled A * Trace) : Promise A :=
  fun h => let (s, t') := f (snd h) in (s, (fst h, t')).

(** Starting a call whose promise the caller drops: the call is made, its
    settlement is never observed. *)
Definition fireAndForget {A} (p : Promise A) : Promise unit :=
  fun h => let (_, h') := p h in (Fulfilled tt, h').

(** ** Collaborators *)

Record QueueSet : Type := {
  pop : Trace -> Settled (option Request);
  push : list Request -> string -> Trace -> Settled unit;
  repush : Request -> Request -> Trace -> Settled unit;
  done : Request -> Trace -> Settled unit;
  abandon : Request -> Trace -> Settled unit;
  pushDead : Request -> Trace -> Settled unit
}.

Record LockService : Type := {
  locker_lock : string -> Z -> Trace -> Settled Json;
  locker_unlock : Json -> Trace -> Settled unit
}.

Record Options : Type := {
  pollingDelay : option Z;
  processingTtl : option Z;
  orgList : option (list string)
}.

(** A processor handler: a synchronous function of the request that may
    throw, may enqueue work and annotate links, and returns a document. *)
Definition Handler : Type := Promise Document.

(** What the processor needs from outside [lib/processor.js]: the policy
    gate, Node's [URL.parse], the [parse-link-header] package and the
    [Request] helpers its handlers call. *)
Record ProcessorDeps : Type := {
  shouldProcess : Policy -> Request -> Z -> bool;
  query_page : option string -> Settled (option string);
  getCollectionType : Request -> option string;
  parse_last_page : string -> option Z;
  linkResource : string -> Json -> Promise unit;
  linkSiblings : string -> Promise unit;
  queueCollectionElement : option string -> Json -> Json -> Promise unit;
  typeHandler : string -> option Handler
}.

(** The crawler and its collaborators.  [fetcher.fetch(request)] is handed
    the request object and works on it (it records [status] and [fetch] in
    [meta], attaches the response and the document, may rewrite the type
    and may mark the request skipped): [fetcher_fetch] answers how the call
    settles and what it has made of the request by then, also when it
    rejects. *)
Record Crawler : Type := {
  queues : QueueSet;
  store_upsert : option Document -> Trace -> Settled Json;
  locker : option LockService;
  fetcher_fetch : Request -> Trace -> Settled unit * Request;
  options : Options;
  processor : ProcessorDeps;
  Date_now : Trace -> Z;
  utc_toISOString : Trace -> string;
  URL_path : string -> option string;
  toString : Request -> string;
  toUniqueString : Request -> string;
  policy_shouldSave : Policy -> bool;
  getShortForm : Policy -> string
}.

(** ** Strings: [split('/')] and [toLowerCase] *)

Fixpoint split_on (sep : ascii) (s : string) : list string :=
  match s with
  | EmptyString => [EmptyString]
  | String c s' =>
      if Ascii.eqb c sep then EmptyString :: split_on sep s'
      else match split_on sep s' with
           | piece :: rest => String c piece :: rest
           | [] => [String c EmptyString]
           end
  end.

(** [toLowerCase] on the ASCII letters (organisation names are ASCII). *)
Definition lower_ascii (c : ascii) : ascii :=
  let n := nat_of_ascii c in
  if (65 <=? n)%nat && (n <=? 90)%nat then ascii_of_nat (n + 32) else c.

Fixpoint toLowerCase (s : string) : string :=
  match s with
  | EmptyString => EmptyString
  | String c s' => String (lower_ascii c) (toLowerCase s')
  end.

(** ** The crawler ([Crawler] class, queue-set revision) *)

Section CrawlerMethods.

Variable this : Crawler.

Definition MAX_ATTEMPTS : Z := 5.

Definition _createQueuable (request : Request) : Request :=
  let queuable := new_Request (type request) (url request) (context request) in
  let queuable := set_attemptCount (attemptCount request) queuable in
  set_policy (policy request) queuable.

(** [_queueDead] only talks to the queue set: it is a function of the trace. *)
Definition _queueDead (request : Request) : Trace -> Settled unit * Trace :=
  fun t =>
    let queuable := _createQueuable request in
    (pushDead (queues this) queuable t, t ++ [EPushDead queuable]).

Definition _shouldInclude (ty target : string) : Settled bool :=
  match orgList (options this) with
  | None | Some [] => Fulfilled true
  | Some orgs =>
      if String.eqb ty "repo" || String.eqb ty "repos" || String.eqb ty "org" then
        match URL_path this target with
        | None => Rejected (TypeError "Cannot read property 'split' of null")
        | Some path =>
            match nth_error (split_on "/" path) 2 with
            | None => Rejected (TypeError "Cannot read property 'toLowerCase' of undefined")
            | Some org => Fulfilled (existsb (String.eqb (toLowerCase org)) orgs)
            end
        end
      else Fulfilled true
  end.

Definition _acquireLock : Promise unit :=
  request ← this_request;
  match url request, locker this with
  | Some target, Some l =>
      if truthy_str (Some target) then
        let ttl := num_or (processingTtl (options this)) (60 * 1000) in
        then2 (call (ELock target ttl) (locker_lock l target ttl))
          (fun lease => mutate (set_lock lease))
          (fun err =>
             if String.prefix "Exceeded" (error_message err)
             then mutate (markRequeue "Requeued" (Text "Could not lock"))
             else mutate (markRequeue "Error" (Caught err)))
      else Q tt
  | _, _ => Q tt
  end.

Definition _releaseLock : Promise unit :=
  request ← this_request;
  match locker this with
  | Some l =>
      if truthy (lock request) then
        then2 (call (EUnlock (lock request)) (locker_unlock l (lock request)))
          (fun _ => mutate (set_lock JNull))
          (fun err => mutate (set_lock JNull);; log error (error_message err))
      else Q tt
  | None => Q tt
  end.

Definition _deleteFromQueue : Promise unit :=
  request ← this_request;
  call (EDone request) (done (queues this) request).

Definition _abandonInQueue : Promise unit :=
  request ← this_request;
  call (EAbandon request) (abandon (queues this) request).

Definition _requeue : Promise unit :=
  mutate (fun r => set_attemptCount (Some (num_or (attemptCount r) 0)) r);;
  mutate (fun r => set_attemptCount (Some (default 0 (attemptCount r) + 1)) r);;
  request ← this_request;
  let n := default 0 (attemptCount request) in
  if MAX_ATTEMPTS <? n then
    log warn ("Exceeded attempt count for " +:+ show (type request)
              +:+ "@" +:+ show (url request));;
    onTrace (_queueDead request)
  else
    mutate (addMeta {[ "attempt" := JNum n ]});;
    log info ("Requeuing attempt " +:+ pretty n +:+ " of request "
              +:+ show (type request) +:+ "@" +:+ show (url request));;
    request ← this_request;
    let queuable := _createQueuable request in
    call (ERepush request queuable) (repush (queues this) request queuable).

(** The requeue path of [_completeRequest]: the branch taken when
    [forceRequeue] holds or the request is marked for requeue and has a url. *)
Definition requeuePath : Promise unit :=
  then2
    (finally
       (catch _requeue (fun err => log error (error_message err);; throw err))
       _releaseLock)
    (fun _ => _deleteFromQueue)
    (fun _ => _abandonInQueue).

(** [_completeRequest(request, forceRequeue)].  Its only recursive call passes
    [forceRequeue = true], which takes the requeue path at once; that call is
    written as [requeuePath]. *)
Definition _completeRequest (forceRequeue : bool) : Promise unit :=
  request ← this_request;
  if forceRequeue || (shouldRequeue request && truthy_str (url request)) then
    requeuePath
  else
    then2 (settle (Q_all (promises request)))
      (fun _ => then2 _releaseLock
                  (fun _ => _deleteFromQueue)
                  (fun _ => _abandonInQueue))
      (fun _ => requeuePath).

(** The public enqueue entry point.  It returns either the empty array or
    the promise of the push. *)
Inductive Queued : Type :=
| NothingQueued
| PushPromise (p : Settled unit).

Definition queue (request : Request) (name : string) (t : Trace)
    : Settled Queued * Trace :=
  if negb (truthy_str (url request)) || negb (truthy_str (type request)) then
    let (_, t') := _queueDead request t in
    (Rejected {| error_message :=
                   "Attempt to queue malformed request " +:+ toString this request |},
     t')
  else
    let ty := default "" (type request) in
    let target := default "" (url request) in
    match _shouldInclude ty target with
    | Rejected e => (Rejected e, t)
    | Fulfilled false =>
        (Fulfilled NothingQueued,
         t ++ [ELog verbose ("Filtered " +:+ ty +:+ "@" +:+ target)])
    | Fulfilled true =>
        let queuable := _createQueuable request in
        (Fulfilled (PushPromise (push (queues this) [queuable] name t)),
         t ++ [EPush [queuable] name])
    end.

(** *** The processor ([Processor] class) *)

Definition Processor_version : Z := 3.

Definition deps : ProcessorDeps := processor this.

Definition qualifierOf (request : Request) : Settled Json :=
  match context request with
  | None => Rejected (TypeError "Cannot read property 'qualifier' of undefined")
  | Some ctx => Fulfilled (default JUndefined (ctx !! "qualifier"))
  end.

(** [document.elements] as an array to iterate over. *)
Definition elementsOf (request : Request) : Settled (list Json) :=
  match document request with
  | None => Rejected (TypeError "Cannot read property 'elements' of undefined")
  | Some doc =>
      match prop "elements" (body doc) with
      | Rejected e => Rejected e
      | Fulfilled (JArr items) => Fulfilled items
      | Fulfilled _ => Rejected (TypeError "document.elements is not iterable")
      end
  end.

(** Running a request helper over each element in turn; a throw stops the
    iteration. *)
Fixpoint forEach {A} (items : list A) (f : A -> Promise unit) : Promise unit :=
  match items with
  | [] => Q tt
  | item :: rest => f item;; forEach rest f
  end.

Fixpoint mapM {A B} (f : A -> Settled B) (items : list A) : Settled (list B) :=
  match items with
  | [] => Fulfilled []
  | item :: rest =>
      match f item with
      | Rejected e => Rejected e
      | Fulfilled b =>
          match mapM f rest with
          | Rejected e => Rejected e
          | Fulfilled bs => Fulfilled (b :: bs)
          end
      end
  end.

(** The handlers return [request.document]: the object the link helpers have
    been annotating, read when the handler returns. *)
Definition returnDocument : Promise Document :=
  request ← this_request;
  match document request with
  | Some doc => Q doc
  | None => throw (TypeError "document is undefined")
  end.

Definition _processRelation (origin name ty : Json) : Promise unit :=
  request ← this_request;
  qualifier ← settle (qualifierOf request);
  linkResource deps "origin" (JStr (render qualifier));;
  linkResource deps (render origin) (JStr (render qualifier));;
  linkSiblings deps (render qualifier +:+ ":" +:+ render name +:+ ":pages");;
  request ← this_request;
  elements ← settle (elementsOf request);
  urns ← settle (mapM (fun element =>
                         match prop "id" element with
                         | Rejected e => Rejected e
                         | Fulfilled id =>
                             Fulfilled (JStr ("urn:" +:+ render ty +:+ ":" +:+ render id))
                         end) elements);
  linkResource deps "resources" (JArr urns).

Definition page (pageNumber : Json) : Handler :=
  request ← this_request;
  qualifier ← settle (qualifierOf request);
  linkResource deps "self"
    (JStr (render qualifier +:+ ":" +:+ show (type request)
           +:+ ":page:" +:+ render pageNumber));;
  request ← this_request;
  let relation := default JUndefined (default ∅ (context request) !! "relation") in
  (if truthy relation then
     origin ← settle (prop "origin" relation);
     name ← settle (prop "name" relation);
     ty ← settle (prop "type" relation);
     _processRelation origin name ty
   else Q tt);;
  request ← this_request;
  let elementType := getCollectionType deps request in
  elements ← settle (elementsOf request);
  forEach elements (fun item =>
    target ← settle (prop "url" item);
    queueCollectionElement deps elementType target qualifier);;
  returnDocument.

(** The [for] loop of [collection]: [i] runs from 2 while [i <= last]. *)
Definition pageNumbers (last : Z) : list Z :=
  map Z.of_nat (seq 2 (Z.to_nat (last - 1))).

Definition pageRequest (request : Request) (qualifier : Json) (i : Z) : Request :=
  let target := show (url request) +:+ "?page=" +:+ pretty i +:+ "&per_page=100" in
  let newRequest := new_Request (type request) (Some target) None in
  let newRequest := set_policy (policy request) newRequest in
  set_context (Some {[ "qualifier" := qualifier ]}) newRequest.

(** [(request.response && request.response.headers) ? ....link : null] *)
Definition linkHeaderOf (request : Request) : option string :=
  match response request with
  | Some resp => match headers resp with
                 | Some hs => link hs
                 | None => None
                 end
  | None => None
  end.

Definition collection : Handler :=
  request ← this_request;
  (if truthy_str (linkHeaderOf request) then
     match parse_last_page deps (default "" (linkHeaderOf request)) with
     | None => throw (TypeError "Cannot read property 'page' of undefined")
     | Some last =>
         qualifier ← settle (qualifierOf request);
         let requests := map (pageRequest request qualifier) (pageNumbers last) in
         t ← currentTrace;
         onTrace (fun t => (Fulfilled tt, t ++ [EPush requests "soon"]));;
         let pushed := push (queues this) requests "soon" t in
         mutate (track pushed)
     end
   else Q tt);;
  page (JNum 1).

Definition _getHandler : Promise (option Handler) :=
  request ← this_request;
  match query_page deps (url request) with
  | Rejected e => throw e
  | Fulfilled pageParam =>
      if truthy_str pageParam then Q (Some (page (JStr (default "" pageParam))))
      else if truthy_str (getCollectionType deps request) then Q (Some collection)
      else Q (match type request with
              | Some ty => typeHandler deps ty
              | None => None
              end)
  end.

Definition setVersion (doc : Document) (md : gmap string Json) : Document :=
  {| body := body doc; _metadata := Some (<["version" := JNum Processor_version]> md) |}.

Definition process : Promise (option Document) :=
  handler ← _getHandler;
  match handler with
  | None =>
      request ← this_request;
      mutate (markSkip "Skip"
                (Text ("No handler found for request type: " +:+ show (type request))));;
      request ← this_request;
      Q (document request)
  | Some handler =>
      request ← this_request;
      if negb (shouldProcess deps (policy request) request Processor_version) then
        mutate (markSkip "Excluded" (Text "Traversal policy excluded this resource"));;
        request ← this_request;
        Q (document request)
      else
        result ← handler;
        match _metadata result with
        | None => throw (TypeError "Cannot set property 'version' of undefined")
        | Some md => Q (Some (setVersion result md))
        end
  end.

(** *** The pipeline stages *)

Definition now : Promise Z :=
  t ← currentTrace; Q (Date_now this t).

Definition _logStartEnd {A} (name : string) (work : Promise A) : Promise A :=
  start ← now;
  request ← this_request;
  let uniqueString := toUniqueString this request in
  log verbose ("Started " +:+ name +:+ " " +:+ uniqueString);;
  finally work
    ((if String.eqb uniqueString "" then
        onTrace (fun t => (Fulfilled tt, t ++ [EConsole "what?!"]))
      else Q tt);;
     finished ← now;
     log verbose ("Finished " +:+ name +:+ " (" +:+ pretty (finished - start)
                  +:+ "ms) " +:+ uniqueString)).

Definition DEFAULT_DELAY : Z := 2000.

(** The request a cycle works on when the queues are exhausted. *)
Definition blankRequest (now : Z) : Request :=
  markSkip "Exhausted queue" (Text "Waiting 2 seconds")
    (Request_delay now (num_or (pollingDelay (options this)) DEFAULT_DELAY)
       (new_Request (Some "_blank") None None)).

(** [_getRequestWork]: there is no request object before the pop answers, so
    this stage is a function of the trace; it yields the content of
    [requestBox] next to the settlement. *)
Definition _getRequestWork (loop : string) (t : Trace)
    : Settled unit * option Request * Trace :=
  let t1 := t ++ [EPop] in
  match pop (queues this) t with
  | Rejected e => (Rejected e, None, t1)
  | Fulfilled popped =>
      let request := match popped with
                     | Some request => request
                     | None => blankRequest (Date_now this t1)
                     end in
      let request := set_start (Some (Date_now this t1)) request in
      let request := set_loopName (Some loop) request in
      let request := set_context (Some (default ∅ (context request))) request in
      let request := set_promises [] request in
      let '(s, (request, t2)) := _acquireLock (request, t1) in
      (s, Some request, t2)
  end.

Definition _getRequest (loop : string) (t : Trace)
    : Settled unit * option Request * Trace :=
  let start := Date_now this t in
  let '(s, box, t1) := _getRequestWork loop (t ++ [ELog verbose "Started getRequest "]) in
  let finished uniqueString :=
    ELog verbose ("Finished getRequest (" +:+ pretty (Date_now this t1 - start)
                  +:+ "ms) " +:+ uniqueString) in
  match s, box with
  | Fulfilled _, Some request => (s, box, t1 ++ [finished (toUniqueString this request)])
  | _, _ => (s, box, t1 ++ [EConsole "what?!"; finished ""])
  end.

Definition _filter : Promise unit :=
  request ← this_request;
  if negb (truthy_str (url request)) || negb (truthy_str (type request)) then
    fireAndForget (onTrace (_queueDead request));;
    mutate (markSkip "Error"
              (Caught {| error_message :=
                           "Detected malformed request " +:+ toString this request |}))
  else
    included ← settle (_shouldInclude (default "" (type request))
                                      (default "" (url request)));
    if negb included then mutate (markSkip "Filtered" NoMessage) else Q tt.

Definition _fetch : Promise unit :=
  request ← this_request;
  if shouldSkip request then Q tt
  else
    _logStartEnd "fetching"
      (callOn (EFetch request) (fetcher_fetch this request)).

Definition _convertToDocument : Promise unit :=
  request ← this_request;
  if shouldSkip request then Q tt
  else
    t ← currentTrace;
    let metadata : gmap string Json :=
      {[ "type" := opt_json (type request);
         "url" := opt_json (url request);
         "fetchedAt" := JStr (utc_toISOString this t);
         "links" := JObj [] ]} in
    let metadata :=
      match response request with
      | Some resp =>
          match headers resp with
          | Some hs =>
              let metadata :=
                if truthy_str (etag hs)
                then <["etag" := opt_json (etag hs)]> metadata else metadata in
              if truthy_str (link hs)
              then <["headers" := JObj [("link", opt_json (link hs))]]> metadata
              else metadata
          | None => metadata
          end
      | None => metadata
      end in
    match response request with
    | None => throw (TypeError "Cannot read property '_metadataTemplate' of undefined")
    | Some resp =>
        let metadata := _metadataTemplate resp ∪ metadata in
        match document request with
        | None => throw (TypeError "Cannot set property '_metadata' of undefined")
        | Some doc =>
            let wrapped := if isArray (body doc)
                           then JObj [("elements", body doc)] else body doc in
            mutate (set_document
                      (Some {| body := wrapped; _metadata := Some metadata |}))
        end
    end.

Definition _processDocument : Promise unit :=
  request ← this_request;
  if shouldSkip request then Q tt
  else
    _logStartEnd "processing"
      (result ← process;
       mutate (set_document result)).

Definition shouldSave (request : Request) : bool :=
  policy_shouldSave this (policy request).

Definition _storeDocument : Promise unit :=
  request ← this_request;
  if shouldSkip request || negb (shouldSave request) then Q tt
  else
    start ← now;
    upserted ← call (EUpsert (document request)) (store_upsert this (document request));
    mutate (set_upsert (Some upserted));;
    stored ← now;
    mutate (addMeta {[ "store" := JNum (stored - start) ]}).

(** [_errorHandler] once [requestBox] holds the in-flight request. *)
Definition _errorHandler (err : Error) : Promise unit :=
  request ← this_request;
  if String.eqb (show (type request)) "_errorTrap" then Q tt
  else mutate (markRequeue "Error" (Caught err)).

(** [_errorHandler] while [requestBox] is still empty: the request it
    synthesizes.  Modelled from the spec: [delay()] without an argument
    induces the default polling delay. *)
Definition errorTrap (now : Z) (err : Error) : Request :=
  markSkip "Error" (Caught err)
    (Request_delay now DEFAULT_DELAY (new_Request (Some "_errorTrap") None None)).

Definition _logOutcome : Promise unit :=
  request ← this_request;
  let outcomeText := if truthy_str (outcome request)
                     then default "" (outcome request) else "Processed" in
  if String.eqb outcomeText "Error" then
    log error (match message request with
               | Caught e => error_message e
               | Text m => m
               | NoMessage => ""
               end)
  else
    finished ← now;
    mutate (addMeta {[ "time" := match start request with
                                 | Some began => JNum (finished - began)
                                 | None => JNull
                                 end ]});;
    log info (outcomeText +:+ " " +:+ getShortForm this (policy request) +:+ " "
              +:+ show (type request) +:+ "@" +:+ show (url request) +:+ " "
              +:+ match message request with
                  | Text m => m
                  | Caught e => error_message e
                  | NoMessage => ""
                  end).

(** The chain of [processOne] from the first [catch] on.  Both bound
    [_completeRequest] functions are arguments of the one [log] call, which
    looks at its first argument only: [then] gets no rejection handler. *)
Definition completion (stages : Promise unit) : Promise unit :=
  catch
    (catch
       (catch stages _errorHandler;;
        _completeRequest false)
       _errorHandler;;
     _logOutcome)
    _errorHandler.

Definition processOne (loop : string) (t : Trace) : Settled unit * Heap :=
  match _getRequest loop t with
  | (s, Some request, t1) =>
      completion
        (settle s;; _filter;; _fetch;; _convertToDocument;;
         _processDocument;; _storeDocument)
        (request, t1)
  | (s, None, t1) =>
      let err := match s with
                 | Rejected e => e
                 | Fulfilled _ => TypeError "request is undefined"
                 end in
      completion (Q tt) (errorTrap (Date_now this t1) err, t1)
  end.

(** *** The worker loop ([run], [_run], [_computeDelay])

    A loop is one chain of control: [run] arms a timer, the timer fires into
    [_run], [_run] starts a cycle, the end of the cycle calls [run] again.
    [pc] says where the chain stands; [doneCalls] counts the invocations of
    [context.done], [cyclesBegun] the calls of [processOne]. *)

Inductive Pc : Type :=
| AtRun
| Timer (ms : Z)
| InCycle
| Exited.

Record LoopState : Type := {
  loopContext : LoopContext;
  pc : Pc;
  doneCalls : nat;
  cyclesBegun : nat;
  world : Trace
}.

Definition STOP : Z := -1.

(** [return context.done ? context.done() : null] *)
Definition finishLoop (s : LoopState) : LoopState :=
  {| loopContext := loopContext s; pc := Exited;
     doneCalls := if hasDone (loopContext s) then S (doneCalls s) else doneCalls s;
     cyclesBegun := cyclesBegun s; world := world s |}.

Definition run (s : LoopState) : LoopState :=
  let context := loopContext s in
  if delay context =? STOP then finishLoop s
  else
    let waiting := currentDelay context in
    {| loopContext := {| name := name context; delay := delay context;
                         currentDelay := Some 0; hasDone := hasDone context |};
       pc := Timer (num_or waiting 0);
       doneCalls := doneCalls s; cyclesBegun := cyclesBegun s;
       world := if num_or waiting 0 =? 0 then world s
                else world s ++ [ELog verbose ("Crawler: " +:+ name context
                                               +:+ " waiting for "
                                               +:+ pretty (num_or waiting 0) +:+ "ms")] |}.

Definition _run (s : LoopState) : LoopState :=
  if delay (loopContext s) =? STOP then finishLoop s
  else {| loopContext := loopContext s; pc := InCycle; doneCalls := doneCalls s;
          cyclesBegun := S (cyclesBegun s); world := world s |}.

Definition _computeDelay (context : LoopContext) (request : Request) (t : Trace)
    : LoopContext :=
  if delay context =? STOP then context
  else
    let current := Date_now this t in
    let contextGate := current + delay context in
    let requestGate := num_or (nextRequestTime request) current in
    let nextTime := Z.max (Z.max contextGate requestGate) current in
    {| name := name context; delay := delay context;
       currentDelay := Some (Z.max 0 (nextTime - current));
       hasDone := hasDone context |}.

(** The cycle settles: [_computeDelay] or [_panic], then ([finally]) [run]. *)
Definition cycleEnd (s : LoopState) : LoopState :=
  match processOne (name (loopContext s)) (world s) with
  | (Fulfilled _, (request, t)) =>
      {| loopContext := _computeDelay (loopContext s) request t; pc := AtRun;
         doneCalls := doneCalls s; cyclesBegun := cyclesBegun s; world := t |}
  | (Rejected e, (_, t)) =>
      {| loopContext := loopContext s; pc := AtRun;
         doneCalls := doneCalls s; cyclesBegun := cyclesBegun s;
         world := t ++ [ELog error "PANIC, we should not have gotten here";
                        ELog error (error_message e)] |}
  end.

Definition step (s : LoopState) : LoopState :=
  match pc s with
  | AtRun => run s
  | Timer _ => _run s
  | InCycle => cycleEnd s
  | Exited => s
  end.

(** Code outside the loop writing [context.delay] (as [CrawlerLoop.stop]
    does). *)
Definition setDelay (v : Z) (s : LoopState) : LoopState :=
  {| loopContext := {| name := name (loopContext s); delay := v;
                       currentDelay := currentDelay (loopContext s);
                       hasDone := hasDone (loopContext s) |};
     pc := pc s; doneCalls := doneCalls s; cyclesBegun := cyclesBegun s;
     world := world s |}.

Inductive Action : Type :=
| Tick
| Write (v : Z).

Definition act (s : LoopState) (a : Action) : LoopState :=
  match a with
  | Tick => step s
  | Write v => setDelay v s
  end.

Definition acts (s : LoopState) (l : list Action) : LoopState := fold_left act l s.

(** [crawler.run(context)] on a fresh context. *)
Definition startLoop (context : LoopContext) (t : Trace) : LoopState :=
  {| loopContext := context; pc := AtRun; doneCalls := 0; cyclesBegun := 0;
     world := t |}.

End CrawlerMethods.

(** ** The supervisor ([CrawlerLoop] and [CrawlerService]) *)

Module CrawlerLoop.

(** [this.state]: [None] is the initial [null]. *)
Inductive Status : Type := Running | Stopping | Stopped.

Record t : Type := {
  options : LoopContext;
  state : option Status
}.

(** [new CrawlerLoop(crawler, name)] *)
Definition create (loopName : string) : t :=
  {| options := {| name := loopName; delay := 0; currentDelay := None;
                   hasDone := false |};
     state := None |}.

Definition running (loop : t) : bool :=
  match state loop with Some Running => true | _ => false end.

(** [run] marks the loop running, installs the [done] callback in the
    options and hands the options to [crawler.run]. *)
Definition run (loop : t) : Settled t :=
  match state loop with
  | Some _ =>
      Rejected {| error_message :=
                    "Loop " +:+ name (options loop) +:+ " can only be run once" |}
  | None =>
      Fulfilled {| options := {| name := name (options loop);
                                 delay := delay (options loop);
                                 currentDelay := currentDelay (options loop);
                                 hasDone := true |};
                   state := Some Running |}
  end.

Definition stop (loop : t) : t :=
  match state loop with
  | Some Stopped | Some Stopping => loop
  | _ => {| options := {| name := name (options loop); delay := -1;
                          currentDelay := currentDelay (options loop);
                          hasDone := hasDone (options loop) |};
            state := Some Stopping |}
  end.

End CrawlerLoop.

Module CrawlerService.

Record t : Type := {
  loops : list CrawlerLoop.t;
  count : Z
}.

(** [loop.running], read without calling it, is the method: truthy for
    every loop. *)
Definition runningPropertyTruthy (loop : CrawlerLoop.t) : bool := true.

(** [status] adds one for every loop whose [running] property is truthy. *)
Definition status (service : t) : Z :=
  fold_left (fun running (loop : CrawlerLoop.t) =>
               running + (if runningPropertyTruthy loop then 1 else 0))
            (loops service) 0.

(** What one reconciliation did: the loop set it leaves, the loops it
    stopped (in the order it stopped them) and the loops it started. *)
Record Reconciled : Type := {
  service : t;
  stopped : list CrawlerLoop.t;
  spawned : list CrawlerLoop.t
}.

(** [for (i = 0; i < Math.abs(delta); i++) { loops.shift().stop() }] *)
Fixpoint stopLoops (n : nat) (set stoppedSoFar : list CrawlerLoop.t)
    : Settled (list CrawlerLoop.t * list CrawlerLoop.t) :=
  match n with
  | O => Fulfilled (set, stoppedSoFar)
  | S n' =>
      match set with
      | [] => Rejected (TypeError "Cannot read property 'stop' of undefined")
      | loop :: rest => stopLoops n' rest (stoppedSoFar ++ [CrawlerLoop.stop loop])
      end
  end.

(** [for (i = 0; i < delta; i++) { loop = new CrawlerLoop(..., i.toString());
    loop.run(); loops.push(loop) }] *)
Fixpoint startLoops (indices : list nat) (set started : list CrawlerLoop.t)
    : Settled (list CrawlerLoop.t * list CrawlerLoop.t) :=
  match indices with
  | [] => Fulfilled (set, started)
  | i :: rest =>
      match CrawlerLoop.run (CrawlerLoop.create (pretty (Z.of_nat i))) with
      | Rejected e => Rejected e
      | Fulfilled loop => startLoops rest (set ++ [loop]) (started ++ [loop])
      end
  end.

Definition ensureLoops (this : t) : Settled Reconciled :=
  let this := {| loops := List.filter CrawlerLoop.running (loops this);
                 count := count this |} in
  let running := status this in
  let delta := count this - running in
  if delta <? 0 then
    match stopLoops (Z.to_nat (Z.abs delta)) (loops this) [] with
    | Rejected e => Rejected e
    | Fulfilled (set, halted) =>
        Fulfilled {| service := {| loops := set; count := count this |};
                     stopped := halted; spawned := [] |}
    end
  else
    match startLoops (seq 0 (Z.to_nat delta)) (loops this) [] with
    | Rejected e => Rejected e
    | Fulfilled (set, started) =>
        Fulfilled {| service := {| loops := set; count := count this |};
                     stopped := []; spawned := started |}
    end.

End CrawlerService.

(** ** Reading traces *)

Inductive Kind : Type :=
| KPop | KPush | KRepush | KDone | KAbandon | KPushDead
| KLock | KUnlock | KFetch | KUpsert | KLog | KConsole.

Definition kind (e : Event) : Kind :=
  match e with
  | EPop => KPop
  | EPush _ _ => KPush
  | ERepush _ _ => KRepush
  | EDone _ => KDone
  | EAbandon _ => KAbandon
  | EPushDead _ => KPushDead
  | ELock _ _ => KLock
  | EUnlock _ => KUnlock
  | EFetch _ => KFetch
  | EUpsert _ => KUpsert
  | ELog _ _ => KLog
  | EConsole _ => KConsole
  end.

(** Acknowledging or abandoning the delivery. *)
Definition isAck (e : Event) : bool :=
  match e with EDone _ | EAbandon _ => true | _ => false end.

Definition isLockOp (e : Event) : bool :=
  match e with ELock _ _ | EUnlock _ => true | _ => false end.

(** The queue operations other than the pop that opens a cycle. *)
Definition isQueueOp (e : Event) : bool :=
  match e with
  | EPush _ _ | ERepush _ _ | EDone _ | EAbandon _ | EPushDead _ => true
  | _ => false
  end.

Definition isLog (e : Event) : bool :=
  match e with ELog _ _ | EConsole _ => true | _ => false end.

(** The events a computation appended to the trace it started from. *)
Definition appended (before after : Trace) : Trace := skipn (length before) after.

(** What [_releaseLock] appends: nothing without a lease or a lock service,
    otherwise the unlock call and, when it fails, the logged error. *)
Definition releaseEvents (this : Crawler) (request : Request) (t : Trace) : Trace :=
  match locker this with
  | Some l =>
      if truthy (lock request) then
        EUnlock (lock request) ::
        match locker_unlock l (lock request) t with
        | Fulfilled _ => []
        | Rejected e => [ELog error (error_message e)]
        end
      else []
  | None => []
  end.

(** The request after [_releaseLock]: the lease is cleared when an unlock was
    attempted, whatever its outcome. *)
Definition released (this : Crawler) (request : Request) : Request :=
  match locker this with
  | Some _ => if truthy (lock request) then set_lock JNull request else request
  | None => request
  end.

(** The broker hands a repushed queuable back as the next delivery. *)
Fixpoint redeliveries (this : Crawler) (rounds : nat) (h : Heap) : Heap :=
  match rounds with
  | O => h
  | S rounds' =>
      let '(_, (request, t)) := _requeue this h in
      redeliveries this rounds' (_createQueuable request, t)
  end.

(** ** Sample collaborators

    Collaborators with fixed answers, and the requests of the specification's
    scenarios. *)

Definition sampleQueues (popped : option Request) (doneAnswer : Settled unit)
    : QueueSet :=
  {| pop := fun _ => Fulfilled popped;
     push := fun _ _ _ => Fulfilled tt;
     repush := fun _ _ _ => Fulfilled tt;
     done := fun _ _ => doneAnswer;
     abandon := fun _ _ => Fulfilled tt;
     pushDead := fun _ _ => Fulfilled tt |}.

Definition sampleLocker (lockAnswer : Settled Json) (unlockAnswer : Settled unit)
    : LockService :=
  {| locker_lock := fun _ _ _ => lockAnswer;
     locker_unlock := fun _ _ => unlockAnswer |}.

(** A processor environment in which every request is a collection whose
    Link header names [last] as its last page. *)
Definition sampleDeps (last : Z) : ProcessorDeps :=
  {| shouldProcess := fun _ _ _ => true;
     query_page := fun _ => Fulfilled None;
     getCollectionType := fun _ => Some "issue";
     parse_last_page := fun _ => Some last;
     linkResource := fun _ _ => Q tt;
     linkSiblings := fun _ => Q tt;
     queueCollectionElement := fun _ _ _ => Q tt;
     typeHandler := fun _ => None |}.

Definition sampleCrawler (q : QueueSet) (l : option LockService)
    (orgs : option (list string)) : Crawler :=
  {| queues := q;
     store_upsert := fun _ _ => Fulfilled JNull;
     locker := l;
     fetcher_fetch := fun request _ => (Fulfilled tt, request);
     options := {| pollingDelay := None; processingTtl := None; orgList := orgs |};
     processor := sampleDeps 7;
     Date_now := fun t => Z.of_nat (length t);
     utc_toISOString := fun _ => "2016-11-01T00:00:00.000Z";
     URL_path := fun target => Some (String.substring 23 (String.length target) target);
     toString := fun request => show (type request) +:+ "@" +:+ show (url request);
     toUniqueString := fun request => show (type request) +:+ "@" +:+ show (url request);
     policy_shouldSave := fun _ => true;
     getShortForm := fun _ => "D" |}.

Definition repoRequest : Request :=
  new_Request (Some "repo") (Some "https://api.example.com/repos/acme/widget")
    (Some ∅).

(** A happy cycle's request at completion: lease 42 held, nothing pending. *)
Definition leasedRequest : Request := set_lock (JNum 42) repoRequest.

Definition sigh : Error := {| error_message := "sigh" |}.

(** The crawler of the counterexample to the abandon-on-failed-release
    reading: every queue call succeeds, the unlock fails. *)
Definition unlockFails : Crawler :=
  sampleCrawler (sampleQueues None (Fulfilled tt))
    (Some (sampleLocker (Fulfilled (JNum 42)) (Rejected sigh))) None.

(** A crawler whose queues are exhausted. *)
Definition idleCrawler : Crawler :=
  sampleCrawler (sampleQueues None (Fulfilled tt))
    (Some (sampleLocker (Fulfilled (JNum 42)) (Fulfilled tt))) None.

(** A crawler restricted to the organisation [contoso]. *)
Definition contosoOnly : Crawler :=
  sampleCrawler (sampleQueues None (Fulfilled tt)) None (Some ["contoso"]).

(** A crawler whose lock service reports contention, with one request
    queued. *)
Definition contended : Crawler :=
  sampleCrawler (sampleQueues (Some repoRequest) (Fulfilled tt))
    (Some (sampleLocker (Rejected {| error_message := "Exceeded 1 attempts" |})
             (Fulfilled tt))) None.

Definition sampleLink : string :=
  "<https://x.test/issues?page=2>; rel=next, <https://x.test/issues?page=7>; rel=last".

Definition collectionRequest : Request :=
  set_response
    (Some {| headers := Some {| etag := None; link := Some sampleLink |};
             _metadataTemplate := ∅ |})
    (set_document (Some {| body := JObj [("elements", JArr [])];
                           _metadata := Some ∅ |})
       (set_context (Some {[ "qualifier" := JStr "urn:repo:42" ]})
          (new_Request (Some "collection")
             (Some "https://api.example.com/repos/acme/widget/issues") None))).

(** What the requeue path logs between [_requeue] and the release. *)
Definition requeueLogged (requeued : Settled unit) : Trace :=
  match requeued with
  | Fulfilled _ => []
  | Rejected e => [ELog error (error_message e)]
  end.

(** How the requeue path settles the delivery: acknowledged when [_requeue]
    succeeded, abandoned when it failed. *)
Definition settlement (requeued : Settled unit) (request : Request) : Event :=
  if isFulfilled requeued then EDone request else EAbandon request.

(** The completion protocol as the specification words it for a failed
    release on the happy path: the delivery is abandoned, not acknowledged. *)
Definition abandonsOnFailedRelease (this : Crawler) (request : Request)
    (t : Trace) : Prop :=
  forall (l : LockService) (e : Error),
    locker this = Some l ->
    truthy (lock request) = true ->
    locker_unlock l (lock request) t = Rejected e ->
    let '(_, (_, t')) := _completeRequest this false (request, t) in
    existsb (fun ev => match ev with EAbandon _ => true | _ => false end)
            (appended t t') = true
    /\ existsb (fun ev => match ev with EDone _ => true | _ => false end)
               (appended t t') = false.

(** [!request.url || !request.type] *)
Definition malformed (request : Request) : bool :=
  negb (truthy_str (url request)) || negb (truthy_str (type request)).

(** A well-formed request that the organisation allowlist rejects. *)
Definition excluded (this : Crawler) (request : Request) : bool :=
  negb (malformed request)
  && match _shouldInclude this (default "" (type request)) (default "" (url request)) with
     | Fulfilled included => negb included
     | Rejected _ => false
     end.

Definition malformedRequest : Request := new_Request (Some "repo") None None.

(** A document carrying the version of the processor that produced it. *)
Definition stamped (doc : option Document) : Prop :=
  exists (d : Document) (md : gmap string Json),
    doc = Some d /\ _metadata d = Some md
    /\ md !! "version" = Some (JNum Processor_version).

(** The calls an idle cycle does not make: lock and unlock, fetch, upsert,
    push, repush and abandon. *)
Definition idleQuiet (e : Event) : bool :=
  match e with
  | ELock _ _ | EUnlock _ | EFetch _ | EUpsert _
  | EPush _ _ | ERepush _ _ | EAbandon _ => false
  | _ => true
  end.

(** The request [_getRequestWork] hands on when the pop returns nothing. *)
Definition idleRequest (this : Crawler) (loop : string) (now : Z) : Request :=
  set_promises []
    (set_context (Some ∅)
       (set_loopName (Some loop)
          (set_start (Some now) (blankRequest this now)))).

(** The [done] callback has fired once when the loop has left its chain of
    control, and not before. *)
Definition doneOnceAtExit (s : LoopState) : Prop :=
  hasDone (loopContext s) = true
  /\ ((pc s = Exited /\ doneCalls s = 1%nat)
      \/ (pc s <> Exited /\ doneCalls s = 0%nat)).

(** The loop that [ensureLoops] starts as number [i]. *)
Definition spawnedLoop (i : nat) : CrawlerLoop.t :=
  {| CrawlerLoop.options := {| name := pretty (Z.of_nat i); delay := 0;
                               currentDelay := None; hasDone := true |};
     CrawlerLoop.state := Some CrawlerLoop.Running |}.

Definition runningLoop (loopName : string) : CrawlerLoop.t :=
  {| CrawlerLoop.options := {| name := loopName; delay := 0;
                               currentDelay := None; hasDone := true |};
     CrawlerLoop.state := Some CrawlerLoop.Running |}.

(** Three running loops and a target count of two. *)
Definition oneTooMany : CrawlerService.t :=
  {| CrawlerService.loops := [runningLoop "a"; runningLoop "b"; runningLoop "c"];
     CrawlerService.count := 2 |}.

(** Stopping the excess loops from the tail of the loop set, as the
    specification words it: the last [excess] running loops are stopped and
    the first ones are kept. *)
Definition stopsFromTail (before : CrawlerService.t)
    (after : CrawlerService.Reconciled) : Prop :=
  let kept := List.filter CrawlerLoop.running (CrawlerService.loops before) in
  let remaining := Z.to_nat (CrawlerService.count before) in
  CrawlerService.loops (CrawlerService.service after) = firstn remaining kept
  /\ Permutation (CrawlerService.stopped after)
                 (map CrawlerLoop.stop (skipn remaining kept)).

(** ** Further reading of the engine *)

(** Stages 4 to 7 of a cycle, in the order [processOne] chains them. *)
Definition fetchToStore (this : Crawler) : Promise unit :=
  _fetch this;; _convertToDocument this;; _processDocument this;; _storeDocument this.

(** The calls a cycle makes besides logging. *)
Definition calls (t : Trace) : Trace := List.filter (fun e => negb (isLog e)) t.

(** A loop context as [CrawlerLoop.run] hands it to the crawler. *)
Definition loopOptions (loopName : string) (pause : Z) : LoopContext :=
  {| name := loopName; delay := pause; currentDelay := None; hasDone := true |}.

(** A crawler whose queue broker is down: the pop fails. *)
Definition brokerDown : Crawler :=
  sampleCrawler
    {| pop := fun _ => Rejected sigh;
       push := fun _ _ _ => Fulfilled tt;
       repush := fun _ _ _ => Fulfilled tt;
       done := fun _ _ => Fulfilled tt;
       abandon := fun _ _ => Fulfilled tt;
       pushDead := fun _ _ => Fulfilled tt |} None None.

(** A crawler whose fetcher reports every resource as unmodified. *)
Definition nothingNew : Crawler :=
  {| queues := sampleQueues None (Fulfilled tt);
     store_upsert := fun _ _ => Fulfilled JNull;
     locker := None;
     fetcher_fetch := fun request _ =>
                        (Fulfilled tt, markSkip "Unmodified" NoMessage request);
     options := {| pollingDelay := None; processingTtl := None; orgList := None |};
     processor := sampleDeps 7;
     Date_now := fun t => Z.of_nat (length t);
     utc_toISOString := fun _ => "2016-11-01T00:00:00.000Z";
     URL_path := fun target => Some target;
     toString := fun request => show (url request);
     toUniqueString := fun request => show (url request);
     policy_shouldSave := fun _ => true;
     getShortForm := fun _ => "D" |}.

(** A crawler whose fetcher meets a server error: it records the status in
    [meta] and throws. *)
Definition serverError : Crawler :=
  {| queues := sampleQueues None (Fulfilled tt);
     store_upsert := fun _ _ => Fulfilled JNull;
     locker := None;
     fetcher_fetch := fun request _ =>
                        (Rejected {| error_message := "Code: 500 for: "
                                                      +:+ show (url request) |},
                         addMeta {[ "status" := JNum 500 ]} request);
     options := {| pollingDelay := None; processingTtl := None; orgList := None |};
     processor := sampleDeps 7;
     Date_now := fun t => Z.of_nat (length t);
     utc_toISOString := fun _ => "2016-11-01T00:00:00.000Z";
     URL_path := fun target => Some target;
     toString := fun request => show (url request);
     toUniqueString := fun request => show (url request);
     policy_shouldSave := fun _ => true;
     getShortForm := fun _ => "D" |}.


(** The number of times a character occurs in a string. *)
Fixpoint occurrences (c : ascii) (s : string) : nat :=
  match s with
  | EmptyString => 0
  | String c' s' => (if Ascii.eqb c' c then 1 else 0) + occurrences c s'
  end.

(** The three request types the organisation allowlist applies to. *)
Definition orgScoped (ty : string) : bool :=
  String.eqb ty "repo" || String.eqb ty "repos" || String.eqb ty "org".

(** A crawler restricted to an organisation spelled with a capital. *)
Definition capitalised : Crawler :=
  sampleCrawler (sampleQueues None (Fulfilled tt)) None (Some ["Contoso"]).

(** Stages 6 and 7 of a cycle. *)
Definition processAndStore (this : Crawler) : Promise unit :=
  _processDocument this;; _storeDocument this.

(** The handler [_getHandler] picks for a request. *)
Definition handlerFor (this : Crawler) (request : Request)
    : Settled (option Handler) :=
  fst (_getHandler this (request, [])).

(** [!request.policy.shouldProcess(request, this.version)] *)
Definition vetoed (this : Crawler) (request : Request) : bool :=
  negb (shouldProcess (processor this) (policy request) request Processor_version).

(** A processor environment that knows no handler for any type. *)
Definition noHandlers : ProcessorDeps :=
  {| shouldProcess := fun _ _ _ => true;
     query_page := fun _ => Fulfilled None;
     getCollectionType := fun _ => None;
     parse_last_page := fun _ => None;
     linkResource := fun _ _ => Q tt;
     linkSiblings := fun _ => Q tt;
     queueCollectionElement := fun _ _ _ => Q tt;
     typeHandler := fun _ => None |}.

Definition handlerless : Crawler :=
  {| queues := sampleQueues None (Fulfilled tt);
     store_upsert := fun _ _ => Fulfilled JNull;
     locker := None;
     fetcher_fetch := fun request _ => (Fulfilled tt, request);
     options := {| pollingDelay := None; processingTtl := None; orgList := None |};
     processor := noHandlers;
     Date_now := fun t => Z.of_nat (length t);
     utc_toISOString := fun _ => "2016-11-01T00:00:00.000Z";
     URL_path := fun target => Some target;
     toString := fun request => show (url request);
     toUniqueString := fun request => show (url request);
     policy_shouldSave := fun _ => true;
     getShortForm := fun _ => "D" |}.

(** [request.outcome === 'Error'] *)
Definition failed (request : Request) : bool :=
  match outcome request with
  | Some o => String.eqb o "Error"
  | None => false
  end.

(** [stop() { return this.ensureLoops(); }] *)
Definition CrawlerService_stop (this : CrawlerService.t)
    : Settled CrawlerService.Reconciled :=
  CrawlerService.ensureLoops this.

(** The [done] callback of a loop fires: [donePromise] resolves and its
    [finally] marks the loop stopped.  [run] installs the callback; before
    that there is none to call. *)
Definition CrawlerLoop_done (loop : CrawlerLoop.t) : CrawlerLoop.t :=
  if hasDone (CrawlerLoop.options loop)
  then {| CrawlerLoop.options := CrawlerLoop.options loop;
          CrawlerLoop.state := Some CrawlerLoop.Stopped |}
  else loop.

(** What can happen to a loop object: a call of [run] (which may throw and
    then changes nothing), a call of [stop], the [done] callback firing. *)
Inductive LoopCall : Type :=
| CallRun
| CallStop
| DoneFires.

Definition loopCall (loop : CrawlerLoop.t) (c : LoopCall) : CrawlerLoop.t :=
  match c with
  | CallRun => match CrawlerLoop.run loop with
               | Fulfilled started => started
               | Rejected _ => loop
               end
  | CallStop => CrawlerLoop.stop loop
  | DoneFires => CrawlerLoop_done loop
  end.

Definition loopCalls (loop : CrawlerLoop.t) (cs : list LoopCall) : CrawlerLoop.t :=
  fold_left loopCall cs loop.

(** How far a loop is in its life: not started, running, stopping, stopped. *)
Definition stage (loop : CrawlerLoop.t) : nat :=
  match CrawlerLoop.state loop with
  | None => 0
  | Some CrawlerLoop.Running => 1
  | Some CrawlerLoop.Stopping => 2
  | Some CrawlerLoop.Stopped => 3
  end.

(** What the options of a loop look like at each stage. *)
Definition wellFormedLoop (loopName : string) (loop : CrawlerLoop.t) : Prop :=
  name (CrawlerLoop.options loop) = loopName
  /\ currentDelay (CrawlerLoop.options loop) = None
  /\ match CrawlerLoop.state loop with
     | None => delay (CrawlerLoop.options loop) = 0
               /\ hasDone (CrawlerLoop.options loop) = false
     | Some CrawlerLoop.Running => delay (CrawlerLoop.options loop) = 0
                                   /\ hasDone (CrawlerLoop.options loop) = true
     | Some CrawlerLoop.Stopping => delay (CrawlerLoop.options loop) = STOP
     | Some CrawlerLoop.Stopped => hasDone (CrawlerLoop.options loop) = true
                                   /\ (delay (CrawlerLoop.options loop) = 0
                                       \/ delay (CrawlerLoop.options loop) = STOP)
     end.

(** ** Configuration patches ([CrawlerService._collectPatches]) *)

Module Patch.

(** A JSON-patch entry.  [_collectPatches] reads and rewrites [path]; [op]
    and [value] are carried along. *)
Record t : Type := {
  op : string;
  path : string;
  value : Json
}.

End Patch.

(** [pieces.join(sep)] *)
Fixpoint join (sep : ascii) (pieces : list string) : string :=
  match pieces with
  | [] => EmptyString
  | piece :: rest =>
      match rest with
      | [] => piece
      | _ :: _ => piece +:+ String sep (join sep rest)
      end
  end.

(** [segments[1]] used as a property name: a missing segment is
    [undefined], which names the property [undefined]. *)
Definition patchKey (patch : Patch.t) : string :=
  default "undefined" (nth_error (split_on "/" (Patch.path patch)) 1).

(** [patch.path = '/' + segments.slice(2).join('/')] *)
Definition rebase (patch : Patch.t) : Patch.t :=
  {| Patch.op := Patch.op patch;
     Patch.path := "/" +:+ join "/" (skipn 2 (split_on "/" (Patch.path patch)));
     Patch.value := Patch.value patch |}.

(** The names an object literal inherits from [Object.prototype].  Under
    these [result[key]] is truthy from the start and is not an array, so
    the [push] throws. *)
Definition inheritedProperty (key : string) : bool :=
  existsb (String.eqb key)
    ["constructor"; "__defineGetter__"; "__defineSetter__"; "hasOwnProperty";
     "__lookupGetter__"; "__lookupSetter__"; "isPrototypeOf";
     "propertyIsEnumerable"; "toString"; "valueOf"; "__proto__";
     "toLocaleString"].

(** The reducer of [_collectPatches]; a throw ends the reduction. *)
Definition collectPatch (result : Settled (gmap string (list Patch.t)))
    (patch : Patch.t) : Settled (gmap string (list Patch.t)) :=
  match result with
  | Rejected e => Rejected e
  | Fulfilled result =>
      let key := patchKey patch in
      if inheritedProperty key
      then Rejected (TypeError "result[key].push is not a function")
      else Fulfilled (<[key := default [] (result !! key) ++ [rebase patch]]> result)
  end.

Definition _collectPatches (patches : list Patch.t)
    : Settled (gmap string (list Patch.t)) :=
  fold_left collectPatch patches (Fulfilled ∅).

(** The patches of a list that are filed under a key. *)
Definition filedUnder (key : string) (patches : list Patch.t) : list Patch.t :=
  List.filter (fun patch => String.eqb (patchKey patch) key) patches.

Definition countPatch : Patch.t :=
  {| Patch.op := "replace"; Patch.path := "/crawler/count"; Patch.value := JNum 4 |}.

(** ** The organisation filter of the earlier revision ([lib/crawler.js]) *)

Module Legacy.

(** [this.config] of the earlier [Crawler]: [orgFilter] is a [Set] of
    organisation names, or absent. *)
Record Config : Type := {
  orgFilter : option (gset string)
}.

(** [_configFilter] answers whether a request is to be filtered out. *)
Definition _configFilter (config : Config) (URL_path : string -> option string)
    (ty target : string) : Settled bool :=
  match orgFilter config with
  | None => Fulfilled false
  | Some organisations =>
      if String.eqb ty "repo" || String.eqb ty "repos" || String.eqb ty "org" then
        match URL_path target with
        | None => Rejected (TypeError "Cannot read property 'split' of null")
        | Some path =>
            match nth_error (split_on "/" path) 2 with
            | None => Rejected (TypeError
                                  "Cannot read property 'toLowerCase' of undefined")
            | Some org =>
                Fulfilled (negb (bool_decide (toLowerCase org ∈ organisations)))
            end
        end
      else Fulfilled false
  end.

End Legacy.

(** * Properties *)

(** ** Proof support *)

Lemma appended_app (t extra : Trace) : appended t (t ++ extra) = extra.
Proof.
  unfold appended. induction t as [|e t IH]; simpl; [reflexivity | exact IH].
Qed.

Lemma appended_self (t : Trace) : appended t t = [].
Proof.
  rewrite <- (app_nil_r t) at 2. apply appended_app.
Qed.

(** Unfolding the promise combinators. *)
Ltac promise :=
  unfold mbind, mret, Promise_bind, Promise_ret, catch, then_, then2, finally,
    Q, throw, this_request, mutate, call, log, settle, onTrace, fireAndForget,
    currentTrace in *;
  simpl in *.

(** [_requeue], as one equation. *)
Lemma requeue_eq (this : Crawler) (request : Request) (t : Trace) :
  let n := num_or (attemptCount request) 0 + 1 in
  let counted := set_attemptCount (Some n) request in
  _requeue this (request, t) =
  if MAX_ATTEMPTS <? n then
    let warned := ELog warn ("Exceeded attempt count for " +:+ show (type request)
                             +:+ "@" +:+ show (url request)) in
    (pushDead (queues this) (_createQueuable counted) (t ++ [warned]),
     (counted, t ++ [warned; EPushDead (_createQueuable counted)]))
  else
    let noted := addMeta {[ "attempt" := JNum n ]} counted in
    let told := ELog info ("Requeuing attempt " +:+ pretty n +:+ " of request "
                           +:+ show (type request) +:+ "@" +:+ show (url request)) in
    (repush (queues this) noted (_createQueuable noted) (t ++ [told]),
     (noted, t ++ [told; ERepush noted (_createQueuable noted)])).
Proof.
  unfold _requeue, _queueDead. promise.
  destruct (MAX_ATTEMPTS <? num_or (attemptCount request) 0 + 1);
    rewrite <- app_assoc; reflexivity.
Qed.

(** ** The queuable projection *)

(** C3. The queuable projection built by [_createQueuable] carries the
    [type], [url], [context], [policy] and [attemptCount] of the request and
    nothing else: every transient attribute ([lock], [promises], [document],
    [response], [upsert], [meta], and the outcome, timing and control marks)
    is that of a newly constructed request, and two requests that agree on
    the five carried attributes have the same projection. *)
Theorem createQueuable_carries_identity_only (request : Request) :
  _createQueuable request =
    {| type := type request; url := url request; context := context request;
       policy := policy request; attemptCount := attemptCount request;
       document := None; response := None; outcome := None;
       message := NoMessage; processControl := None; meta := ∅;
       promises := []; lock := JUndefined; start := None; loopName := None;
       nextRequestTime := None; upsert := None |}
  /\ (forall other : Request,
        type other = type request -> url other = url request ->
        context other = context request -> policy other = policy request ->
        attemptCount other = attemptCount request ->
        _createQueuable other = _createQueuable request)
  /\ _createQueuable (_createQueuable request) = _createQueuable request.
Proof.
  split; [reflexivity | split].
  - intros other Hty Hurl Hctx Hpol Hcount.
    unfold _createQueuable, new_Request, set_policy, set_attemptCount; simpl.
    rewrite Hty, Hurl, Hctx, Hpol, Hcount. reflexivity.
  - reflexivity.
Qed.

Lemma createQueuable_carries_identity_only_witness :
  _createQueuable leasedRequest = _createQueuable repoRequest.
Proof.
  apply (proj1 (proj2 (createQueuable_carries_identity_only repoRequest)));
    reflexivity.
Defined.

(** ** Requeue and dead-letter *)

Lemma redeliveries_live (this : Crawler) (rounds : nat) :
  forall (request : Request) (t : Trace),
    num_or (attemptCount request) 0 + Z.of_nat rounds <= MAX_ATTEMPTS ->
    exists (delivered : Request) (extra : Trace),
      redeliveries this rounds (request, t) = (delivered, t ++ extra)
      /\ num_or (attemptCount delivered) 0
          = num_or (attemptCount request) 0 + Z.of_nat rounds
      /\ map kind (List.filter (fun e => negb (isLog e)) extra)
          = repeat KRepush rounds.
Proof.
  induction rounds as [|rounds IH]; intros request t Hle.
  - exists request, []. simpl. rewrite app_nil_r. repeat split. lia.
  - cbn [redeliveries]. rewrite requeue_eq. cbv zeta.
    assert (Hlive : (MAX_ATTEMPTS <? num_or (attemptCount request) 0 + 1) = false)
      by (apply Z.ltb_ge; lia).
    rewrite Hlive.
    set (n := num_or (attemptCount request) 0 + 1) in *.
    set (noted := addMeta _ _).
    set (logged := ELog info _).
    assert (Hn : num_or (attemptCount (_createQueuable noted)) 0 = n).
    { subst noted. simpl. unfold num_or.
      destruct (Z.eqb_spec n 0) as [E|]; [|reflexivity]. exact (eq_sym E). }
    destruct (IH (_createQueuable noted)
                 (t ++ [logged; ERepush noted (_createQueuable noted)]))
      as (delivered & extra & Hrun & Hcount & Hkinds);
      [rewrite Hn; subst n; lia|].
    exists delivered, ([logged; ERepush noted (_createQueuable noted)] ++ extra).
    rewrite Hrun. split; [|split].
    + rewrite <- app_assoc. reflexivity.
    + rewrite Hcount, Hn. subst n. lia.
    + simpl. rewrite Hkinds. reflexivity.
Qed.

Lemma num_or_pos (o : option Z) (n : Z) : n <> 0 -> num_or o 0 = n -> o = Some n.
Proof.
  intros Hn. destruct o as [m|]; simpl; [|congruence].
  destruct (Z.eqb_spec m 0); congruence.
Qed.

(** C2. [_requeue] adds one to [attemptCount] (an absent count is 0).  When
    the new count exceeds 5 the queuable projection goes to the dead-letter
    queue and nothing is repushed; otherwise the projection, with the new
    count, is repushed and [{attempt: n}] is recorded in [meta].  The
    projection differs from that of the request only in the count.  Hence a
    repushed entry never carries a count above 5, and of six deliveries of a
    request that keeps failing the first five are repushed with counts 1 to
    5 and the sixth is dead-lettered. *)
Theorem requeue_counts_attempts (this : Crawler) (request : Request) (t : Trace) :
  let n := num_or (attemptCount request) 0 + 1 in
  (exists (status : Settled unit) (requeued : Request) (text : string),
     attemptCount requeued = Some n
     /\ _createQueuable requeued = set_attemptCount (Some n) (_createQueuable request)
     /\ if MAX_ATTEMPTS <? n
        then _requeue this (request, t)
               = (status, (requeued, t ++ [ELog warn text;
                                           EPushDead (_createQueuable requeued)]))
             /\ meta requeued = meta request
        else _requeue this (request, t)
               = (status, (requeued, t ++ [ELog info text;
                                           ERepush requeued (_createQueuable requeued)]))
             /\ meta requeued = {[ "attempt" := JNum n ]} ∪ meta request
             /\ meta requeued !! "attempt" = Some (JNum n)
             /\ n <= MAX_ATTEMPTS)
  /\ (exists (sixth : Request) (extra : Trace) (status : Settled unit)
             (dead : Request) (text : string),
        redeliveries this 5 (set_attemptCount None request, t) = (sixth, t ++ extra)
        /\ map kind (List.filter (fun e => negb (isLog e)) extra) = repeat KRepush 5
        /\ attemptCount sixth = Some 5
        /\ _requeue this (sixth, t ++ extra)
             = (status, (dead, (t ++ extra) ++ [ELog warn text;
                                                EPushDead (_createQueuable dead)]))
        /\ attemptCount (_createQueuable dead) = Some 6).
Proof.
  cbv zeta. split.
  - pose proof (requeue_eq this request t) as Heq. cbv zeta in Heq.
    set (n := num_or (attemptCount request) 0 + 1) in *.
    destruct (MAX_ATTEMPTS <? n) eqn:Hcmp.
    + eexists _, _, _. split; [|split; [|split]]; cycle 2.
      * exact Heq.
      * reflexivity.
      * reflexivity.
      * reflexivity.
    + eexists _, _, _. split; [|split; [|split; [|split; [|split]]]]; cycle 2.
      * exact Heq.
      * reflexivity.
      * simpl. apply lookup_union_Some_l, lookup_singleton_eq.
      * apply Z.ltb_ge. exact Hcmp.
      * reflexivity.
      * reflexivity.
  - destruct (redeliveries_live this 5 (set_attemptCount None request) t)
      as (sixth & extra & Hrun & Hcount & Hkinds); [simpl; unfold MAX_ATTEMPTS; lia|].
    simpl in Hcount.
    pose proof (requeue_eq this sixth (t ++ extra)) as Heq. cbv zeta in Heq.
    rewrite Hcount in Heq. simpl in Heq.
    eexists sixth, extra, _, _, _. split; [exact Hrun|]. split; [exact Hkinds|].
    split; [apply num_or_pos; [lia | exact Hcount]|].
    split; [exact Heq | reflexivity].
Qed.

(** ** Completion *)

Lemma releaseLock_eq (this : Crawler) (request : Request) (t : Trace) :
  _releaseLock this (request, t)
  = (Fulfilled tt, (released this request, t ++ releaseEvents this request t)).
Proof.
  unfold _releaseLock, released, releaseEvents. promise.
  destruct (locker this) as [l|]; [|rewrite app_nil_r; reflexivity].
  destruct (truthy (lock request)); [|rewrite app_nil_r; reflexivity].
  simpl. destruct (locker_unlock l (lock request) t); simpl;
    [reflexivity | rewrite <- app_assoc; reflexivity].
Qed.

Lemma releaseEvents_no_ack (this : Crawler) (request : Request) (t : Trace) :
  forallb (fun e => negb (isAck e)) (releaseEvents this request t) = true.
Proof.
  unfold releaseEvents. destruct (locker this) as [l|]; [|reflexivity].
  destruct (truthy (lock request)); [|reflexivity].
  destruct (locker_unlock l (lock request) t); reflexivity.
Qed.

(** [_requeue] talks to the queues only through [repush] and [pushDead]. *)
Lemma requeue_events (this : Crawler) (request : Request) (t : Trace) :
  exists (status : Settled unit) (requeued : Request) (extra : Trace),
    _requeue this (request, t) = (status, (requeued, t ++ extra))
    /\ forallb (fun e => negb (isAck e) && negb (isLockOp e)) extra = true
    /\ lock requeued = lock request.
Proof.
  pose proof (requeue_eq this request t) as Heq. cbv zeta in Heq.
  destruct (MAX_ATTEMPTS <? num_or (attemptCount request) 0 + 1);
    eexists _, _, _; (split; [exact Heq | split; reflexivity]).
Qed.

Lemma requeuePath_eq (this : Crawler) (request : Request) (t : Trace)
    (status : Settled unit) (requeued : Request) (extra : Trace) :
  _requeue this (request, t) = (status, (requeued, t ++ extra)) ->
  let t1 := t ++ extra ++ requeueLogged status in
  let final := released this requeued in
  requeuePath this (request, t)
  = ((if isFulfilled status then done (queues this) final
      else abandon (queues this) final) (t1 ++ releaseEvents this requeued t1),
     (final, t ++ extra ++ requeueLogged status ++ releaseEvents this requeued t1
               ++ [settlement status final])).
Proof.
  intros Hrequeue. cbv zeta.
  unfold requeuePath, _deleteFromQueue, _abandonInQueue, settlement.
  unfold then2 at 1. unfold finally. unfold catch, then2 at 1.
  rewrite Hrequeue.
  destruct status as [[]|e]; simpl.
  - unfold Q. rewrite releaseLock_eq. promise.
    rewrite !app_nil_r, <- !app_assoc. reflexivity.
  - promise. rewrite <- !app_assoc. simpl.
    rewrite releaseLock_eq. simpl. rewrite <- !app_assoc. reflexivity.
Qed.

Lemma requeueLogged_quiet (requeued : Settled unit) :
  forallb (fun e => negb (isAck e) && negb (isLockOp e)) (requeueLogged requeued)
  = true.
Proof. destruct requeued; reflexivity. Qed.

(** The completion protocol as the code runs it.  Whatever the
    collaborators answer, [_completeRequest] appends to the trace, in this
    order: the events of [_requeue] and its logged failure (requeue path
    only; none of them a lock or an acknowledgement), then the release of
    the lock ([_releaseLock], nothing when no lease is held), then exactly
    one acknowledgement or abandon, on the released request.  On the happy
    path (not forced, not marked for requeue with a url, every promise
    fulfilled) that last call is [queues.done] whatever the unlock call
    answered.  A rejected promise gives what [forceRequeue = true] gives.
    On the requeue path the last call is [queues.done] when [_requeue]
    succeeded and [queues.abandon] when it failed. *)
Theorem completeRequest_releases_before_settling
    (this : Crawler) (forceRequeue : bool) (request : Request) (t : Trace) :
  let requeuing := forceRequeue || (shouldRequeue request && truthy_str (url request)) in
  let awaited := Q_all (promises request) in
  exists (status : Settled unit) (before : Trace) (held : Request),
    let final := released this held in
    forallb (fun e => negb (isAck e) && negb (isLockOp e)) before = true
    /\ forallb (fun e => negb (isAck e)) (releaseEvents this held (t ++ before)) = true
    /\ if requeuing || negb (isFulfilled awaited)
       then exists (requeued : Settled unit) (extra : Trace),
              _requeue this (request, t) = (requeued, (held, t ++ extra))
              /\ before = extra ++ requeueLogged requeued
              /\ _completeRequest this forceRequeue (request, t)
                 = (status, (final, t ++ before ++ releaseEvents this held (t ++ before)
                                      ++ [settlement requeued final]))
              /\ _completeRequest this forceRequeue (request, t)
                 = _completeRequest this true (request, t)
       else before = [] /\ held = request
            /\ _completeRequest this forceRequeue (request, t)
               = (status, (final, t ++ releaseEvents this request t ++ [EDone final])).
Proof.
  cbv zeta.
  destruct (requeue_events this request t)
    as (requeued & held & extra & Hrequeue & Hquiet & Hlock).
  pose proof (requeuePath_eq this request t requeued held extra Hrequeue) as Hpath.
  cbv zeta in Hpath.
  assert (Hforced : _completeRequest this true (request, t) = requeuePath this (request, t))
    by reflexivity.
  destruct (forceRequeue || (shouldRequeue request && truthy_str (url request)))
    eqn:Hrequeuing.
  - (* the requeue path *)
    assert (Hgo : _completeRequest this forceRequeue (request, t)
                  = requeuePath this (request, t)).
    { unfold _completeRequest. promise. rewrite Hrequeuing. reflexivity. }
    eexists _, (extra ++ requeueLogged requeued), held. simpl.
    split; [rewrite forallb_app, Hquiet, requeueLogged_quiet; reflexivity|].
    split; [apply releaseEvents_no_ack|].
    exists requeued, extra. split; [exact Hrequeue|]. split; [reflexivity|].
    rewrite Hgo, Hforced, Hpath, <- !app_assoc. split; reflexivity.
  - destruct (Q_all (promises request)) as [[]|e] eqn:Hawaited; simpl.
    + (* the happy path *)
      eexists _, [], request. rewrite app_nil_r.
      split; [reflexivity|]. split; [apply releaseEvents_no_ack|].
      split; [reflexivity|]. split; [reflexivity|].
      unfold _completeRequest. promise. rewrite Hrequeuing, Hawaited.
      rewrite releaseLock_eq. unfold _deleteFromQueue. promise.
      rewrite <- app_assoc. reflexivity.
    + (* a promise rejected: fall through to the requeue path *)
      assert (Hgo : _completeRequest this forceRequeue (request, t)
                    = requeuePath this (request, t)).
      { unfold _completeRequest. promise. rewrite Hrequeuing, Hawaited. reflexivity. }
      eexists _, (extra ++ requeueLogged requeued), held.
      split; [rewrite forallb_app, Hquiet, requeueLogged_quiet; reflexivity|].
      split; [apply releaseEvents_no_ack|].
      exists requeued, extra. split; [exact Hrequeue|]. split; [reflexivity|].
      rewrite Hgo, Hforced, Hpath, <- !app_assoc. split; reflexivity.
Qed.

(** C1, at the failing input.  A request that holds lease 42, has no
    pending promise and is not marked for requeue is completed on a crawler
    whose lock service fails the unlock.  The release comes before the
    acknowledgement, but the delivery is acknowledged with [queues.done] and
    not abandoned: [_releaseLock] handles the failed unlock itself (it
    clears the lease and logs the error), so the rejection handler that
    [_completeRequest] attaches to it, and that its comment describes ("if
    release fails abandon as everyone will think it is still in the queue"),
    never runs. *)
Lemma failed_release_is_acknowledged :
  let cleared := set_lock JNull leasedRequest in
  _completeRequest unlockFails false (leasedRequest, [])
  = (Fulfilled tt, (cleared, [EUnlock (JNum 42); ELog error "sigh"; EDone cleared]))
  /\ ~ abandonsOnFailedRelease unlockFails leasedRequest [].
Proof.
  cbv zeta. split; [reflexivity|].
  intros Hclaim.
  specialize (Hclaim (sampleLocker (Fulfilled (JNum 42)) (Rejected sigh)) sigh
                     eq_refl eq_refl eq_refl).
  vm_compute in Hclaim. destruct Hclaim as [Habandoned _]. discriminate Habandoned.
Qed.

(** ** Lock acquisition *)

(** C4. For a request with a url and a configured lock service,
    [_acquireLock] asks for a lease on the url (TTL [processingTtl], one
    minute by default) and always fulfils: a granted lease is attached as
    [request.lock]; a failure whose message starts with [Exceeded] marks the
    request for requeue with outcome [Requeued] and message [Could not lock];
    any other failure marks it for requeue with outcome [Error] and the
    error.  A request marked this way is skipped by the later stages and
    takes the requeue path. *)
Theorem acquireLock_never_rejects
    (this : Crawler) (l : LockService) (request : Request) (target : string)
    (t : Trace) :
  locker this = Some l ->
  url request = Some target ->
  target <> "" ->
  let ttl := num_or (processingTtl (options this)) 60000 in
  _acquireLock this (request, t)
  = (Fulfilled tt,
     (match locker_lock l target ttl t with
      | Fulfilled lease => set_lock lease request
      | Rejected e =>
          if String.prefix "Exceeded" (error_message e)
          then markRequeue "Requeued" (Text "Could not lock") request
          else markRequeue "Error" (Caught e) request
      end,
      t ++ [ELock target ttl]))
  /\ (forall e : Error,
        locker_lock l target ttl t = Rejected e ->
        let marked := fst (snd (_acquireLock this (request, t))) in
        shouldRequeue marked = true /\ shouldSkip marked = true
        /\ lock marked = lock request
        /\ outcome marked = Some (if String.prefix "Exceeded" (error_message e)
                                  then "Requeued" else "Error")
        /\ message marked = (if String.prefix "Exceeded" (error_message e)
                             then Text "Could not lock" else Caught e)).
Proof.
  intros Hlocker Hurl Htarget. cbv zeta.
  assert (Htruthy : truthy_str (Some target) = true).
  { simpl. destruct (String.eqb_spec target ""); [contradiction | reflexivity]. }
  assert (Heq : _acquireLock this (request, t)
    = (Fulfilled tt,
       (match locker_lock l target (num_or (processingTtl (options this)) 60000) t with
        | Fulfilled lease => set_lock lease request
        | Rejected e =>
            if String.prefix "Exceeded" (error_message e)
            then markRequeue "Requeued" (Text "Could not lock") request
            else markRequeue "Error" (Caught e) request
        end,
        t ++ [ELock target (num_or (processingTtl (options this)) 60000)]))).
  { unfold _acquireLock. promise. rewrite Hurl, Hlocker, Htruthy. promise.
    destruct (locker_lock l target _ t) as [lease|e]; [reflexivity|].
    destruct (String.prefix "Exceeded" (error_message e)); reflexivity. }
  split; [exact Heq|].
  intros e Hfail. rewrite Heq, Hfail. simpl.
  destruct (String.prefix "Exceeded" (error_message e)); repeat split.
Qed.

Lemma acquireLock_never_rejects_witness :
  let marked := markRequeue "Requeued" (Text "Could not lock") repoRequest in
  _acquireLock contended (repoRequest, [])
  = (Fulfilled tt,
     (marked, [ELock "https://api.example.com/repos/acme/widget" 60000]))
  /\ shouldRequeue marked = true.
Proof.
  cbv zeta. split; [|reflexivity].
  exact (proj1 (acquireLock_never_rejects contended
                  (sampleLocker (Rejected {| error_message := "Exceeded 1 attempts" |})
                                (Fulfilled tt))
                  repoRequest "https://api.example.com/repos/acme/widget" []
                  eq_refl eq_refl ltac:(discriminate))).
Defined.

(** ** The enqueue entry point *)

(** C10. [Crawler.queue] on a request without a url or without a type pushes
    its queuable projection onto the dead-letter queue and throws
    [Attempt to queue malformed request ...]; on a well-formed request that
    the organisation allowlist excludes it returns the empty array and makes
    no call to the queues. *)
Theorem queue_rejects_malformed_and_drops_excluded
    (this : Crawler) (request : Request) (name : string) (t : Trace) :
  (malformed request = true ->
   queue this request name t
   = (Rejected {| error_message := "Attempt to queue malformed request "
                                   +:+ toString this request |},
      t ++ [EPushDead (_createQueuable request)]))
  /\ (excluded this request = true ->
      fst (queue this request name t) = Fulfilled NothingQueued
      /\ (exists text, snd (queue this request name t) = t ++ [ELog verbose text])
      /\ existsb isQueueOp (appended t (snd (queue this request name t))) = false).
Proof.
  unfold excluded, malformed, queue, _queueDead. split.
  - intros Hbad. rewrite Hbad. reflexivity.
  - intros Hex. apply andb_prop in Hex as [Hgood Hout].
    apply negb_true_iff in Hgood. rewrite Hgood.
    destruct (_shouldInclude this _ _) as [[|]|e]; try discriminate Hout.
    simpl. split; [reflexivity|]. split; [eexists; reflexivity|].
    rewrite appended_app. reflexivity.
Qed.

Lemma queue_rejects_malformed_and_drops_excluded_witness :
  queue contosoOnly malformedRequest "normal" []
  = (Rejected {| error_message := "Attempt to queue malformed request repo@null" |},
     [EPushDead (_createQueuable malformedRequest)])
  /\ fst (queue contosoOnly repoRequest "normal" []) = Fulfilled NothingQueued.
Proof.
  split.
  - exact (proj1 (queue_rejects_malformed_and_drops_excluded
                    contosoOnly malformedRequest "normal" []) eq_refl).
  - exact (proj1 (proj2 (queue_rejects_malformed_and_drops_excluded
                           contosoOnly repoRequest "normal" []) eq_refl)).
Defined.

(** ** The processor *)

Lemma getHandler_pure (this : Crawler) (h : Heap) :
  snd (_getHandler this h) = h.
Proof.
  unfold _getHandler. promise. destruct h as [request t]. simpl.
  destruct (query_page (deps this) (url request)) as [pageParam|e]; [|reflexivity].
  destruct (truthy_str pageParam); [reflexivity|].
  destruct (truthy_str (getCollectionType (deps this) request)); reflexivity.
Qed.

Lemma setVersion_stamped (doc : Document) (md : gmap string Json) :
  stamped (Some (setVersion doc md)).
Proof.
  exists (setVersion doc md), (<["version" := JNum Processor_version]> md).
  split; [reflexivity|]. split; [reflexivity|]. apply lookup_insert_eq.
Qed.

(** What [process] returns: either the request is left marked to be
    skipped, or the document is stamped. *)
Lemma process_result (this : Crawler) (h : Heap) :
  match process this h with
  | (Fulfilled result, (request', _)) => shouldSkip request' = true \/ stamped result
  | (Rejected _, _) => True
  end.
Proof.
  unfold process. unfold mbind at 1, Promise_bind, then_, then2.
  pose proof (getHandler_pure this h) as Hpure.
  destruct (_getHandler this h) as [[[handler|]|e] h0]; simpl in Hpure; subst h0;
    [| promise; left; reflexivity | exact I].
  destruct h as [request t]. promise.
  destruct (shouldProcess (deps this) (policy request) request Processor_version);
    simpl; [|left; reflexivity].
  destruct (handler (request, t)) as [[result|e] [request' t']]; [|exact I].
  destruct (_metadata result) as [md|] eqn:Hmd; [|exact I].
  right. apply setVersion_stamped.
Qed.

Lemma logStartEnd_result {A} (this : Crawler) (name : string) (work : Promise A)
    (request : Request) (t : Trace) :
  let started := ELog verbose ("Started " +:+ name +:+ " "
                               +:+ toUniqueString this request) in
  exists after : Trace,
    Forall (fun e => isLog e = true) after
    /\ _logStartEnd this name work (request, t)
       = (fst (work (request, t ++ [started])),
          (fst (snd (work (request, t ++ [started]))),
           snd (snd (work (request, t ++ [started]))) ++ after)).
Proof.
  unfold _logStartEnd, now. promise.
  destruct (work (request, t ++ _)) as [s [request' t']].
  destruct (toUniqueString this request =? "")%string; simpl.
  - eexists [_; _]. split; [|rewrite <- app_assoc; reflexivity].
    repeat constructor.
  - eexists [_]. split; [|reflexivity]. repeat constructor.
Qed.

Lemma storeDocument_events (this : Crawler) (request : Request) (t : Trace) :
  appended t (snd (snd (_storeDocument this (request, t))))
  = if shouldSkip request || negb (shouldSave this request) then []
    else [EUpsert (document request)].
Proof.
  unfold _storeDocument, now. promise.
  destruct (shouldSkip request || negb (shouldSave this request));
    [apply appended_self|].
  simpl. destruct (store_upsert this (document request) t); simpl;
    apply appended_app.
Qed.

Lemma processDocument_result (this : Crawler) (request : Request) (t : Trace) :
  match _processDocument this (request, t) with
  | (Fulfilled _, (processed, _)) =>
      shouldSkip processed = true \/ stamped (document processed)
  | (Rejected _, _) => True
  end.
Proof.
  assert (Hstage : _processDocument this (request, t)
                   = if shouldSkip request then (Fulfilled tt, (request, t))
                     else _logStartEnd this "processing"
                            (result ← process this; mutate (set_document result))
                            (request, t)).
  { unfold _processDocument. unfold mbind at 1. unfold Promise_bind, then_, then2,
      this_request. cbn [fst snd]. destruct (shouldSkip request); reflexivity. }
  rewrite Hstage. clear Hstage.
  destruct (shouldSkip request) eqn:Hskip; [left; exact Hskip|].
  destruct (logStartEnd_result this "processing"
              (result ← process this; mutate (set_document result)) request t)
    as (after & _ & Hlogged).
  cbv zeta in Hlogged. rewrite Hlogged. clear Hlogged.
  set (h := (request, t ++ _)).
  pose proof (process_result this h) as Hprocess.
  unfold mbind, Promise_bind, then_, then2.
  destruct (process this h) as [[result|e] [request' t']]; simpl; [|exact I].
  destruct Hprocess as [Hskipped|Hstamped]; [left; exact Hskipped | right; exact Hstamped].
Qed.

(** C6. When [process] finds a handler and the policy permits processing,
    the document it returns is the handler's result with [_metadata.version]
    set to the processor's version, 3 (a result without [_metadata] makes it
    throw).  Hence the document a request carries out of [_processDocument]
    is stamped with that version unless the request is marked to be skipped,
    and every document [_storeDocument] then hands to [store.upsert] is
    stamped. *)
Theorem stored_documents_carry_processor_version (this : Crawler) :
  Processor_version = 3
  /\ (forall (request : Request) (t : Trace) (handler : Handler)
             (result : Document) (after : Heap),
        fst (_getHandler this (request, t)) = Fulfilled (Some handler) ->
        shouldProcess (processor this) (policy request) request Processor_version = true ->
        handler (request, t) = (Fulfilled result, after) ->
        match _metadata result with
        | Some md =>
            process this (request, t)
            = (Fulfilled (Some {| body := body result;
                                  _metadata := Some (<["version" := JNum 3]> md) |}),
               after)
        | None => exists e, process this (request, t) = (Rejected e, after)
        end)
  /\ (forall (request : Request) (t : Trace),
        match _processDocument this (request, t) with
        | (Fulfilled _, (processed, t1)) =>
            forall doc : option Document,
              In (EUpsert doc)
                 (appended t1 (snd (snd (_storeDocument this (processed, t1))))) ->
              stamped doc
        | (Rejected _, _) => True
        end).
Proof.
  split; [reflexivity|]. split.
  - intros request t handler result after Hhandler Hpolicy Hrun.
    pose proof (getHandler_pure this (request, t)) as Hpure.
    assert (Hp : process this (request, t)
                 = match _metadata result with
                   | Some md => (Fulfilled (Some (setVersion result md)), after)
                   | None =>
                       (Rejected (TypeError "Cannot set property 'version' of undefined"),
                        after)
                   end).
    { unfold process. unfold mbind at 1. unfold Promise_bind, then_, then2.
      destruct (_getHandler this (request, t)) as [found h0].
      simpl in Hhandler, Hpure. subst found h0. promise.
      change (deps this) with (processor this). rewrite Hpolicy. simpl.
      rewrite Hrun. destruct (_metadata result); reflexivity. }
    rewrite Hp. destruct (_metadata result) as [md|]; [reflexivity | eexists; reflexivity].
  - intros request t.
    pose proof (processDocument_result this request t) as Hprocessed.
    destruct (_processDocument this (request, t)) as [[[]|e] [processed t1]];
      [|exact I].
    intros doc Hin. rewrite storeDocument_events in Hin.
    destruct Hprocessed as [Hskipped|Hstamped].
    + rewrite Hskipped in Hin. destruct Hin.
    + destruct (shouldSkip processed || negb (shouldSave this processed));
        [destruct Hin|].
      destruct Hin as [Heq|[]]. injection Heq as <-. exact Hstamped.
Qed.

Lemma stored_documents_carry_processor_version_witness :
  exists after : Heap,
    process idleCrawler (collectionRequest, [])
    = (Fulfilled (Some {| body := JObj [("elements", JArr [])];
                          _metadata := Some (<["version" := JNum 3]> ∅) |}),
       after).
Proof.
  eexists.
  exact (proj1 (proj2 (stored_documents_carry_processor_version idleCrawler))
           collectionRequest [] (collection idleCrawler)
           {| body := JObj [("elements", JArr [])]; _metadata := Some ∅ |}
           _ eq_refl eq_refl eq_refl).
Defined.




(** ** The idle cycle *)

(** Counterexample to C5 as stated.  The idle cycle of a crawler whose
    queues are exhausted makes two more calls to the queues after the pop: it
    dead-letters the blank request and acknowledges it. *)
Lemma idle_cycle_touches_the_queues :
  let cycle := snd (snd (processOne idleCrawler "0" [])) in
  map kind (List.filter (fun e => negb (isLog e)) cycle) = [KPop; KPushDead; KDone]
  /\ ~ (forallb (fun e => negb (isQueueOp e)) cycle = true).
Proof.
  cbv zeta. split; [vm_compute; reflexivity|].
  vm_compute. discriminate.
Qed.

Lemma getRequest_idle (this : Crawler) (loop : string) (t : Trace) :
  let started := t ++ [ELog verbose "Started getRequest "] in
  pop (queues this) started = Fulfilled None ->
  exists finished : Event,
    isLog finished = true
    /\ _getRequest this loop t
       = (Fulfilled tt,
          Some (idleRequest this loop (Date_now this (started ++ [EPop]))),
          (started ++ [EPop]) ++ [finished]).
Proof.
  cbv zeta. intros Hpop. unfold _getRequest, _getRequestWork. rewrite Hpop.
  unfold _acquireLock. promise. eexists. split; [|reflexivity].
  reflexivity.
Qed.

(** C5 (as amended).  When the pop returns nothing, the cycle works on a
    synthesized [_blank] request, marked to be skipped with outcome
    [Exhausted queue] and delaying the loop's next request by
    [options.pollingDelay], 2000 ms by default.  During the rest of the
    cycle there is no lock or unlock, no fetch, no upsert and no push,
    repush or abandon; the cycle ends by calling [queues.done] once, on the
    blank request, and fulfils. *)
Theorem idle_cycle_is_quiet (this : Crawler) (loop : string) (t : Trace) :
  let started := t ++ [ELog verbose "Started getRequest "] in
  pop (queues this) started = Fulfilled None ->
  let current := Date_now this (started ++ [EPop]) in
  let blank := idleRequest this loop current in
  (type blank = Some "_blank" /\ url blank = None
   /\ outcome blank = Some "Exhausted queue"
   /\ shouldSkip blank = true /\ shouldRequeue blank = false
   /\ nextRequestTime blank
      = Some (current + num_or (pollingDelay (options this)) 2000)
   /\ num_or None 2000 = 2000)
  /\ (exists finished : Event,
        _getRequest this loop t
        = (Fulfilled tt, Some blank, (started ++ [EPop]) ++ [finished]))
  /\ (exists cycle : Trace,
        snd (snd (processOne this loop t)) = (started ++ [EPop]) ++ cycle
        /\ forallb idleQuiet cycle = true
        /\ map kind (List.filter isAck cycle) = [KDone]
        /\ Forall (fun e => match e with
                            | EDone acknowledged => type acknowledged = Some "_blank"
                            | _ => True
                            end) cycle)
  /\ fst (processOne this loop t) = Fulfilled tt.
Proof.
  cbv zeta. intros Hpop.
  destruct (getRequest_idle this loop t Hpop) as (finished & Hlog & Hget).
  split; [repeat split|]. split; [exists finished; exact Hget|].
  unfold processOne. rewrite Hget.
  unfold completion, _filter, _fetch, _convertToDocument, _processDocument,
    _storeDocument, _completeRequest, _releaseLock, _deleteFromQueue,
    _errorHandler, _logOutcome, _queueDead, now, idleRequest, blankRequest.
  promise.
  split; [|destruct (locker this); simpl;
            destruct (done (queues this) _ _) as [[]|e]; reflexivity].
  destruct (locker this) as [l|]; simpl;
    destruct (done (queues this) _ _) as [[]|e]; simpl;
    (eexists (finished :: _); split; [|split; [|split]];
     [ rewrite <- !app_assoc; simpl; reflexivity
     | simpl; destruct finished; try discriminate Hlog; reflexivity
     | simpl; destruct finished; try discriminate Hlog; reflexivity
     | repeat constructor; destruct finished; try discriminate Hlog; exact I ]).
Qed.

Lemma idle_cycle_is_quiet_witness :
  fst (processOne idleCrawler "0" []) = Fulfilled tt.
Proof.
  exact (proj2 (proj2 (proj2 (idle_cycle_is_quiet idleCrawler "0" [] eq_refl)))).
Defined.

(** ** The worker loop *)

Lemma computeDelay_keeps (this : Crawler) (context : LoopContext)
    (request : Request) (t : Trace) :
  delay (_computeDelay this context request t) = delay context
  /\ hasDone (_computeDelay this context request t) = hasDone context.
Proof.
  unfold _computeDelay. destruct (delay context =? STOP); split; reflexivity.
Qed.

Lemma cycleEnd_keeps (this : Crawler) (s : LoopState) :
  delay (loopContext (cycleEnd this s)) = delay (loopContext s)
  /\ hasDone (loopContext (cycleEnd this s)) = hasDone (loopContext s)
  /\ pc (cycleEnd this s) = AtRun
  /\ doneCalls (cycleEnd this s) = doneCalls s
  /\ cyclesBegun (cycleEnd this s) = cyclesBegun s.
Proof.
  unfold cycleEnd.
  destruct (processOne this (name (loopContext s)) (world s))
    as [[[]|e] [request t]]; simpl.
  - destruct (computeDelay_keeps this (loopContext s) request t) as [Hd Hh].
    rewrite Hd, Hh. repeat split.
  - repeat split.
Qed.

Lemma act_keeps_invariant (this : Crawler) (s : LoopState) (a : Action) :
  doneOnceAtExit s -> doneOnceAtExit (act this s a).
Proof.
  intros [Hdone Hcases]. destruct a as [|v]; [|exact (conj Hdone Hcases)].
  unfold act, step. destruct (pc s) eqn:Hpc.
  - unfold run, finishLoop. destruct (delay (loopContext s) =? STOP); simpl.
    + rewrite Hdone. split; [exact Hdone|]. left.
      destruct Hcases as [[Hexit _]|[_ Hzero]]; [congruence|].
      rewrite Hzero. split; reflexivity.
    + split; [exact Hdone|]. right.
      destruct Hcases as [[Hexit _]|[_ Hzero]]; [congruence|].
      split; [discriminate | exact Hzero].
  - unfold _run, finishLoop. destruct (delay (loopContext s) =? STOP); simpl.
    + rewrite Hdone. split; [exact Hdone|]. left.
      destruct Hcases as [[Hexit _]|[_ Hzero]]; [congruence|].
      rewrite Hzero. split; reflexivity.
    + split; [exact Hdone|]. right.
      destruct Hcases as [[Hexit _]|[_ Hzero]]; [congruence|].
      split; [discriminate | exact Hzero].
  - destruct (cycleEnd_keeps this s) as (_ & Hh & Hp & Hc & _).
    split; [rewrite Hh; exact Hdone|]. right. rewrite Hp, Hc.
    destruct Hcases as [[Hexit _]|[_ Hzero]]; [congruence|].
    split; [discriminate | exact Hzero].
  - split; [exact Hdone|]. left.
    destruct Hcases as [[_ Hone]|[Hlive _]]; [|congruence].
    split; [exact Hpc | exact Hone].
Qed.

Lemma acts_keep_invariant (this : Crawler) (l : list Action) :
  forall s : LoopState, doneOnceAtExit s -> doneOnceAtExit (acts this s l).
Proof.
  induction l as [|a l IH]; intros s Hs; [exact Hs|].
  simpl. apply IH, act_keeps_invariant, Hs.
Qed.

(** One step of a loop that has been told to stop. *)
Lemma stopping_step (this : Crawler) (s : LoopState) :
  delay (loopContext s) = STOP ->
  delay (loopContext (step this s)) = STOP
  /\ cyclesBegun (step this s) = cyclesBegun s
  /\ match pc s with
     | AtRun | Timer _ | Exited => pc (step this s) = Exited
     | InCycle => pc (step this s) = AtRun
     end.
Proof.
  intros Hstop. unfold step. destruct (pc s) eqn:Hpc.
  - unfold run. rewrite Hstop. simpl. repeat split. exact Hstop.
  - unfold _run. rewrite Hstop. simpl. repeat split. exact Hstop.
  - destruct (cycleEnd_keeps this s) as (Hd & _ & Hp & _ & Hc).
    rewrite Hd, Hp, Hc. repeat split. exact Hstop.
  - repeat split; assumption.
Qed.

Lemma stopping_ticks (this : Crawler) (ticks : nat) :
  forall s : LoopState,
    delay (loopContext s) = STOP ->
    let final := acts this s (repeat Tick ticks) in
    delay (loopContext final) = STOP
    /\ cyclesBegun final = cyclesBegun s
    /\ ((2 <= ticks)%nat -> pc final = Exited)
    /\ ((1 <= ticks)%nat -> pc s <> InCycle -> pc final = Exited)
    /\ (pc s = Exited -> pc final = Exited).
Proof.
  induction ticks as [|ticks IH]; intros s Hstop; cbv zeta.
  - simpl. repeat split; [exact Hstop | lia | lia | auto].
  - simpl. destruct (stopping_step this s Hstop) as (Hd & Hc & Hp).
    specialize (IH (step this s) Hd). cbv zeta in IH.
    destruct IH as (IHd & IHc & IH2 & IH1 & IH0).
    split; [exact IHd|]. split; [congruence|].
    assert (Hquick : pc s <> InCycle -> pc (acts this (step this s) (repeat Tick ticks)) = Exited).
    { intros Hne. apply IH0. destruct (pc s); try exact Hp. congruence. }
    split; [|split].
    + intros Hle. destruct (pc s) eqn:Hpc; try (apply Hquick; discriminate).
      apply IH1; [lia | rewrite Hp; discriminate].
    + intros _ Hne. apply Hquick, Hne.
    + intros Hexit. apply Hquick. rewrite Hexit. discriminate.
Qed.

(** C8. Take a loop started with a [done] callback, let it run and be
    written to in any way, and then set its [delay] to -1.  From then on, as
    long as [delay] is left alone: no further cycle begins; the loop leaves
    its chain of control at its next step when it is waiting on its timer or
    about to run, and one step later when a cycle is in flight (the cycle
    completes first); [done] has been called exactly once when it has left
    and never before.  [CrawlerLoop.stop] sets that delay on a running loop,
    leaves a stopping or stopped loop as it is, and is idempotent. *)
Theorem loop_stops_once (this : Crawler) (context : LoopContext) (t : Trace)
    (before : list Action) (ticks : nat) :
  hasDone context = true ->
  let stopping := setDelay STOP (acts this (startLoop context t) before) in
  let final := acts this stopping (repeat Tick ticks) in
  (doneCalls final <= 1)%nat
  /\ (pc final = Exited <-> doneCalls final = 1%nat)
  /\ cyclesBegun final = cyclesBegun stopping
  /\ ((2 <= ticks)%nat -> pc final = Exited /\ doneCalls final = 1%nat)
  /\ ((1 <= ticks)%nat -> pc stopping <> InCycle -> pc final = Exited)
  /\ (forall loop : CrawlerLoop.t,
        CrawlerLoop.stop (CrawlerLoop.stop loop) = CrawlerLoop.stop loop
        /\ (CrawlerLoop.state loop = Some CrawlerLoop.Stopping
            \/ CrawlerLoop.state loop = Some CrawlerLoop.Stopped ->
            CrawlerLoop.stop loop = loop)
        /\ (CrawlerLoop.state loop = Some CrawlerLoop.Running ->
            delay (CrawlerLoop.options (CrawlerLoop.stop loop)) = STOP
            /\ CrawlerLoop.state (CrawlerLoop.stop loop) = Some CrawlerLoop.Stopping)).
Proof.
  intros Hdone. cbv zeta.
  set (stopping := setDelay STOP (acts this (startLoop context t) before)).
  assert (Hinv0 : doneOnceAtExit (startLoop context t)).
  { split; [exact Hdone|]. right. split; [discriminate | reflexivity]. }
  assert (Hinv1 : doneOnceAtExit stopping).
  { exact (acts_keep_invariant this before _ Hinv0). }
  pose proof (acts_keep_invariant this (repeat Tick ticks) stopping Hinv1)
    as [_ Hfinal].
  destruct (stopping_ticks this ticks stopping eq_refl) as (_ & Hc & H2 & H1 & _).
  split; [destruct Hfinal as [[_ ->]|[_ ->]]; lia|].
  split; [destruct Hfinal as [[Hp Hd]|[Hp Hd]]; split; intros; congruence|].
  split; [exact Hc|].
  split; [intros Hle; specialize (H2 Hle);
          destruct Hfinal as [[_ Hd]|[Hp _]]; [split; assumption | contradiction]|].
  split; [exact H1|].
  intros loop. unfold CrawlerLoop.stop.
  destruct (CrawlerLoop.state loop) as [[| |]|] eqn:Hstate; simpl;
    rewrite ?Hstate; repeat split;
    try reflexivity; try (intros [Hs|Hs]; discriminate Hs);
    try (intros Hs; discriminate Hs); try discriminate; try congruence.
Qed.

Lemma loop_stops_once_witness :
  let context := {| name := "0"; delay := 0; currentDelay := None; hasDone := true |} in
  let stopping := setDelay STOP (acts idleCrawler (startLoop context []) [Tick; Tick]) in
  pc stopping = InCycle
  /\ pc (acts idleCrawler stopping [Tick; Tick]) = Exited
  /\ doneCalls (acts idleCrawler stopping [Tick; Tick]) = 1%nat.
Proof.
  cbv zeta. split; [reflexivity|].
  exact (proj1 (proj2 (proj2 (proj2
           (loop_stops_once idleCrawler
              {| name := "0"; delay := 0; currentDelay := None; hasDone := true |}
              [] [Tick; Tick] 2 eq_refl)))) (le_n 2)).
Defined.

(** ** The supervisor *)

Lemma status_counts (service : CrawlerService.t) :
  CrawlerService.status service
  = Z.of_nat (length (CrawlerService.loops service)).
Proof.
  unfold CrawlerService.status, CrawlerService.runningPropertyTruthy.
  assert (Hfold : forall (l : list CrawlerLoop.t) (acc : Z),
            fold_left (fun running (_ : CrawlerLoop.t) => running + 1) l acc
            = acc + Z.of_nat (length l)).
  { induction l as [|x l IH]; intros acc; simpl; [lia|]. rewrite IH. lia. }
  rewrite Hfold. lia.
Qed.

Lemma stopLoops_front (n : nat) :
  forall set halted : list CrawlerLoop.t,
    (n <= length set)%nat ->
    CrawlerService.stopLoops n set halted
    = Fulfilled (skipn n set, halted ++ map CrawlerLoop.stop (firstn n set)).
Proof.
  induction n as [|n IH]; intros set halted Hle; simpl.
  - rewrite app_nil_r. reflexivity.
  - destruct set as [|loop rest]; [simpl in Hle; lia|].
    rewrite IH by (simpl in Hle; lia). simpl. rewrite <- app_assoc. reflexivity.
Qed.

Lemma in_firstn {A} (n : nat) :
  forall (l : list A) (x : A), In x (firstn n l) -> In x l.
Proof.
  induction n as [|n IH]; intros l x Hin; [destruct Hin|].
  destruct l as [|y l]; [destruct Hin|].
  destruct Hin as [Heq|Hin]; [left; exact Heq | right; exact (IH l x Hin)].
Qed.

Lemma startLoops_back (indices : list nat) :
  forall set started : list CrawlerLoop.t,
    CrawlerService.startLoops indices set started
    = Fulfilled (set ++ map spawnedLoop indices, started ++ map spawnedLoop indices).
Proof.
  induction indices as [|i rest IH]; intros set started; simpl.
  - rewrite !app_nil_r. reflexivity.
  - rewrite IH, <- !app_assoc. reflexivity.
Qed.

(** C9 (as amended).  One reconciliation keeps the loops that are running
    (a loop in any other state is pruned), then: when fewer run than the
    count [N] asks for, it starts [N - running] loops, named 0, 1, ..., and
    adds them at the end of the loop set; when more run, it takes
    [running - N] loops from the front of the loop set, stops each, and
    keeps the rest.  Either way [N] loops are left in the set. *)
Theorem ensureLoops_reconciles (this : CrawlerService.t) :
  0 <= CrawlerService.count this ->
  let kept := List.filter CrawlerLoop.running (CrawlerService.loops this) in
  let running := Z.of_nat (length kept) in
  let target := CrawlerService.count this in
  exists result : CrawlerService.Reconciled,
    CrawlerService.ensureLoops this = Fulfilled result
    /\ Forall (fun loop => CrawlerLoop.running loop = true) kept
    /\ Z.of_nat (length (CrawlerService.loops (CrawlerService.service result))) = target
    /\ if target <? running
       then let excess := Z.to_nat (running - target) in
            CrawlerService.stopped result = map CrawlerLoop.stop (firstn excess kept)
            /\ length (CrawlerService.stopped result) = excess
            /\ CrawlerService.loops (CrawlerService.service result) = skipn excess kept
            /\ CrawlerService.spawned result = []
            /\ Forall (fun loop =>
                         CrawlerLoop.state loop = Some CrawlerLoop.Stopping
                         /\ delay (CrawlerLoop.options loop) = STOP)
                      (CrawlerService.stopped result)
       else let missing := Z.to_nat (target - running) in
            CrawlerService.spawned result = map spawnedLoop (seq 0 missing)
            /\ length (CrawlerService.spawned result) = missing
            /\ CrawlerService.loops (CrawlerService.service result)
               = kept ++ CrawlerService.spawned result
            /\ CrawlerService.stopped result = [].
Proof.
  intros Hcount. cbv zeta.
  set (kept := List.filter CrawlerLoop.running (CrawlerService.loops this)).
  assert (Hkept : Forall (fun loop => CrawlerLoop.running loop = true) kept).
  { apply List.Forall_forall. intros loop Hin. apply filter_In in Hin. apply Hin. }
  unfold CrawlerService.ensureLoops. fold kept. rewrite status_counts. simpl.
  replace (CrawlerService.count this - Z.of_nat (length kept) <? 0)
    with (CrawlerService.count this <? Z.of_nat (length kept))
    by (destruct (Z.ltb_spec (CrawlerService.count this) (Z.of_nat (length kept)));
        symmetry; [apply Z.ltb_lt | apply Z.ltb_ge]; lia).
  destruct (Z.ltb_spec (CrawlerService.count this) (Z.of_nat (length kept)))
    as [Hexcess|Hmissing].
  - replace (Z.to_nat (Z.abs (CrawlerService.count this - Z.of_nat (length kept))))
      with (Z.to_nat (Z.of_nat (length kept) - CrawlerService.count this)) by lia.
    set (excess := Z.to_nat (Z.of_nat (length kept) - CrawlerService.count this)).
    rewrite stopLoops_front by (subst excess; lia).
    eexists. split; [reflexivity|]. simpl. split; [exact Hkept|].
    split; [rewrite length_skipn; subst excess; lia|].
    split; [reflexivity|].
    split; [rewrite length_map, length_firstn; subst excess; lia|].
    split; [reflexivity|]. split; [reflexivity|].
    apply List.Forall_forall. intros loop Hin. apply in_map_iff in Hin.
    destruct Hin as (original & <- & Hin).
    assert (Hrun : CrawlerLoop.running original = true).
    { apply (proj1 (List.Forall_forall _ _) Hkept).
      exact (in_firstn _ _ _ Hin). }
    unfold CrawlerLoop.running in Hrun. unfold CrawlerLoop.stop.
    destruct (CrawlerLoop.state original) as [[| |]|]; try discriminate Hrun.
    split; reflexivity.
  - rewrite startLoops_back.
    eexists. split; [reflexivity|]. simpl. split; [exact Hkept|].
    split; [rewrite length_app, length_map, length_seq; lia|].
    split; [reflexivity|].
    split; [rewrite length_map, length_seq; reflexivity|].
    split; reflexivity.
Qed.

Lemma ensureLoops_reconciles_witness :
  CrawlerService.ensureLoops oneTooMany
  = Fulfilled {| CrawlerService.service :=
                   {| CrawlerService.loops := [runningLoop "b"; runningLoop "c"];
                      CrawlerService.count := 2 |};
                 CrawlerService.stopped := [CrawlerLoop.stop (runningLoop "a")];
                 CrawlerService.spawned := [] |}.
Proof.
  destruct (ensureLoops_reconciles oneTooMany ltac:(simpl; lia))
    as (result & Hrun & _).
  rewrite Hrun. vm_compute in Hrun. injection Hrun as <-. reflexivity.
Defined.

(** Counterexample to C9 as stated.  Reconciling three running loops to a
    count of two stops the first loop of the set and keeps the last two. *)
Lemma ensureLoops_stops_the_head :
  exists after : CrawlerService.Reconciled,
    CrawlerService.ensureLoops oneTooMany = Fulfilled after
    /\ CrawlerService.stopped after = [CrawlerLoop.stop (runningLoop "a")]
    /\ CrawlerService.loops (CrawlerService.service after)
       = [runningLoop "b"; runningLoop "c"]
    /\ ~ stopsFromTail oneTooMany after.
Proof.
  eexists. split; [reflexivity|]. split; [reflexivity|]. split; [reflexivity|].
  intros [Hloops _]. vm_compute in Hloops. discriminate Hloops.
Qed.

(** ** Scenarios *)

Example split_path :
  split_on "/" "/repos/acme/widget" = [""; "repos"; "acme"; "widget"]%string.
Proof. reflexivity. Qed.

Example allowlist_ignores_case :
  _shouldInclude contosoOnly "repo" "https://api.example.com/repos/Contoso/site"
  = Fulfilled true
  /\ _shouldInclude contosoOnly "repo" "https://api.example.com/repos/acme/widget"
     = Fulfilled false
  /\ _shouldInclude contosoOnly "issue" "https://api.example.com/repos/acme/widget"
     = Fulfilled true.
Proof. repeat split. Qed.

Example second_page :
  url (pageRequest collectionRequest (JStr "urn:repo:42") 2)
  = Some "https://api.example.com/repos/acme/widget/issues?page=2&per_page=100".
Proof. reflexivity. Qed.

(** Lock contention on a popped request: the cycle repushes it with attempt
    count 1, acknowledges the original delivery and never unlocks. *)
Example contended_cycle :
  let '(status, (request, t)) := processOne contended "0" [] in
  status = Fulfilled tt
  /\ map kind (List.filter (fun e => negb (isLog e)) t)
     = [KPop; KLock; KRepush; KDone]
  /\ outcome request = Some "Requeued"
  /\ attemptCount request = Some 1
  /\ meta request !! "attempt" = Some (JNum 1).
Proof. vm_compute. repeat split. Qed.

(** An idle loop told to stop while its first cycle is in flight: the cycle
    completes, no other begins, [done] fires once. *)
Example stop_during_first_cycle :
  let context := {| name := "0"; delay := 0; currentDelay := None; hasDone := true |} in
  let final := acts idleCrawler (startLoop context [])
                    [Tick; Tick; Write STOP; Tick; Tick; Tick] in
  pc final = Exited /\ doneCalls final = 1%nat /\ cyclesBegun final = 1%nat.
Proof. vm_compute. repeat split. Qed.

(** * Further properties of the engine *)

(** ** The delay between cycles *)

(** X1. [_computeDelay] leaves a stopping context alone.  Otherwise the delay
    it records is never negative, never shorter than the loop's own delay,
    never ends before the request's [nextRequestTime], and is no longer than
    the largest of these demands. *)
Theorem computeDelay_bounds
    (this : Crawler) (context : LoopContext) (request : Request) (t : Trace) :
  let current := Date_now this t in
  let gate := num_or (nextRequestTime request) current in
  let after := _computeDelay this context request t in
  name after = name context /\ delay after = delay context
  /\ hasDone after = hasDone context
  /\ if delay context =? STOP then after = context
     else exists d : Z,
            currentDelay after = Some d
            /\ 0 <= d /\ delay context <= d /\ gate <= current + d
            /\ (d = 0 \/ d = delay context \/ current + d = gate).
Proof.
  cbv zeta. unfold _computeDelay.
  destruct (delay context =? STOP); [repeat split|].
  simpl. repeat split. eexists. split; [reflexivity|]. lia.
Qed.

Lemma step_keeps_delay (this : Crawler) (s : LoopState) :
  delay (loopContext (step this s)) = delay (loopContext s).
Proof.
  unfold step. destruct (pc s).
  - unfold run, finishLoop. destruct (delay (loopContext s) =? STOP); reflexivity.
  - unfold _run, finishLoop. destruct (delay (loopContext s) =? STOP); reflexivity.
  - apply cycleEnd_keeps.
  - reflexivity.
Qed.

Lemma running_step (this : Crawler) (s : LoopState) :
  delay (loopContext s) <> STOP ->
  pc s <> Exited ->
  pc (step this s) <> Exited /\ doneCalls (step this s) = doneCalls s.
Proof.
  intros Hgo Hlive. apply Z.eqb_neq in Hgo. unfold step.
  destruct (pc s) eqn:Hpc.
  - unfold run. rewrite Hgo. simpl. split; [discriminate | reflexivity].
  - unfold _run. rewrite Hgo. simpl. split; [discriminate | reflexivity].
  - destruct (cycleEnd_keeps this s) as (_ & _ & Hp & Hd & _).
    rewrite Hp, Hd. split; [discriminate | reflexivity].
  - contradiction.
Qed.

Lemma running_acts (this : Crawler) (l : list Action) :
  forall s : LoopState,
    delay (loopContext s) <> STOP ->
    pc s <> Exited ->
    (forall v : Z, In (Write v) l -> v <> STOP) ->
    let final := acts this s l in
    pc final <> Exited /\ doneCalls final = doneCalls s
    /\ delay (loopContext final) <> STOP.
Proof.
  induction l as [|a l IH]; intros s Hgo Hlive Hwrites; cbv zeta.
  - simpl. repeat split; assumption.
  - simpl. destruct a as [|v].
    + destruct (running_step this s Hgo Hlive) as [Hp Hd].
      destruct (IH (step this s)) as (Hp' & Hd' & Hg');
        [rewrite step_keeps_delay; exact Hgo | exact Hp
        | intros v Hin; apply Hwrites; right; exact Hin |].
      repeat split; [exact Hp' | simpl; congruence | exact Hg'].
    + destruct (IH (setDelay v s)) as (Hp' & Hd' & Hg');
        [simpl; apply Hwrites; left; reflexivity | exact Hlive
        | intros w Hin; apply Hwrites; right; exact Hin |].
      repeat split; [exact Hp' | exact Hd' | exact Hg'].
Qed.

Lemma three_ticks (this : Crawler) (s : LoopState) :
  delay (loopContext s) <> STOP ->
  pc s = AtRun ->
  let next := step this (step this (step this s)) in
  pc next = AtRun /\ cyclesBegun next = S (cyclesBegun s)
  /\ delay (loopContext next) = delay (loopContext s).
Proof.
  intros Hgo Hpc. cbv zeta. apply Z.eqb_neq in Hgo.
  assert (H1 : step this s = run s) by (unfold step; rewrite Hpc; reflexivity).
  rewrite H1. unfold run. rewrite Hgo.
  set (s1 := {| loopContext := _ ; pc := Timer _ |}).
  assert (H2 : step this s1 = _run s1) by reflexivity.
  rewrite H2. unfold _run. simpl. rewrite Hgo.
  set (s2 := {| loopContext := _ ; pc := InCycle |}).
  assert (H3 : step this s2 = cycleEnd this s2) by reflexivity.
  rewrite H3. destruct (cycleEnd_keeps this s2) as (Hd & _ & Hp & _ & Hc).
  rewrite Hp, Hc, Hd. repeat split.
Qed.

Lemma rounds_begin_cycles (this : Crawler) (rounds : nat) :
  forall s : LoopState,
    delay (loopContext s) <> STOP ->
    pc s = AtRun ->
    let final := acts this s (repeat Tick (3 * rounds)) in
    pc final = AtRun /\ cyclesBegun final = (cyclesBegun s + rounds)%nat.
Proof.
  induction rounds as [|rounds IH]; intros s Hgo Hpc; cbv zeta.
  - simpl. split; [exact Hpc | lia].
  - replace (3 * S rounds)%nat with (3 + 3 * rounds)%nat by lia.
    change (repeat Tick (3 + 3 * rounds))
      with ([Tick; Tick; Tick] ++ repeat Tick (3 * rounds)).
    unfold acts. rewrite fold_left_app.
    change (fold_left (act this) [Tick; Tick; Tick] s)
      with (step this (step this (step this s))).
    destruct (three_ticks this s Hgo Hpc) as (Hp & Hc & Hd).
    destruct (IH (step this (step this (step this s)))) as [Hp' Hc'];
      [rewrite Hd; exact Hgo | exact Hp |].
    unfold acts in Hp', Hc'.
    split; [exact Hp'|]. rewrite Hc', Hc. lia.
Qed.

(** X2. A loop whose delay is never set to -1 keeps going: whatever happens
    in its cycles and whatever other delays are written, it never leaves its
    chain of control and never calls [done]; left alone, every round of
    three steps (run, timer, cycle) begins exactly one cycle. *)
Theorem loop_runs_until_stopped
    (this : Crawler) (context : LoopContext) (t : Trace)
    (actions : list Action) (rounds : nat) :
  delay context <> STOP ->
  (forall v : Z, In (Write v) actions -> v <> STOP) ->
  let s := acts this (startLoop context t) actions in
  pc s <> Exited /\ doneCalls s = 0%nat
  /\ cyclesBegun (acts this (startLoop context t) (repeat Tick (3 * rounds))) = rounds.
Proof.
  intros Hgo Hwrites. cbv zeta.
  destruct (running_acts this actions (startLoop context t) Hgo
              ltac:(discriminate) Hwrites) as (Hp & Hd & _).
  split; [exact Hp|]. split; [exact Hd|].
  destruct (rounds_begin_cycles this rounds (startLoop context t) Hgo eq_refl)
    as [_ Hc].
  exact Hc.
Qed.

Lemma loop_runs_until_stopped_witness :
  let s := acts idleCrawler (startLoop (loopOptions "0" 0) [])
                [Tick; Write 500; Tick; Tick; Tick] in
  pc s <> Exited /\ doneCalls s = 0%nat.
Proof.
  cbv zeta.
  destruct (loop_runs_until_stopped idleCrawler (loopOptions "0" 0) []
              [Tick; Write 500; Tick; Tick; Tick] 1 ltac:(discriminate))
    as (Hp & Hd & _).
  - intros v [Hin|[Hin|[Hin|[Hin|[Hin|[]]]]]]; try discriminate Hin.
    injection Hin as <-. discriminate.
  - split; [exact Hp | exact Hd].
Defined.

(** ** The cycle as a whole *)

Lemma errorHandler_fulfils (err : Error) (h : Heap) :
  fst (_errorHandler err h) = Fulfilled tt
  /\ snd (snd (_errorHandler err h)) = snd h.
Proof.
  unfold _errorHandler. promise.
  destruct (show (type h.1) =? "_errorTrap")%string; split; reflexivity.
Qed.

Lemma completion_fulfils (this : Crawler) (stages : Promise unit) (h : Heap) :
  fst (completion this stages h) = Fulfilled tt.
Proof.
  unfold completion. unfold catch at 1. unfold then2 at 1.
  match goal with |- context [let (_, _) := ?p in _] => destruct p as [[[]|e] h'] end.
  - reflexivity.
  - apply errorHandler_fulfils.
Qed.

(** X3. A cycle never fails: whatever the queues, the lock service, the
    fetcher, the processor and the store do, and whatever throws on the way,
    [processOne] fulfils.  So a worker loop never takes the [_panic] branch:
    the end of a cycle adds nothing to the trace of the cycle itself. *)
Theorem processOne_always_fulfils (this : Crawler) (loop : string) (t : Trace) :
  fst (processOne this loop t) = Fulfilled tt
  /\ forall s : LoopState,
       world (cycleEnd this s)
       = snd (snd (processOne this (name (loopContext s)) (world s))).
Proof.
  assert (Hfulfils : forall (l : string) (t0 : Trace),
            fst (processOne this l t0) = Fulfilled tt).
  { intros l t0. unfold processOne.
    destruct (_getRequest this l t0) as [[s [request|]] t1];
      apply completion_fulfils. }
  split; [apply Hfulfils|].
  intros s. unfold cycleEnd.
  pose proof (Hfulfils (name (loopContext s)) (world s)) as Hcycle.
  destruct (processOne this (name (loopContext s)) (world s))
    as [[[]|e] [request t']]; [reflexivity | discriminate Hcycle].
Qed.

(** X4. When the pop itself fails, the cycle works on a synthesized
    [_errorTrap] request that keeps the error, is marked to be skipped and
    delays the loop.  The stages from filter to store are not run: after the
    pop the only call to a collaborator is one [queues.done], on the trap;
    there is no lock, no fetch, no store, no dead-letter and no requeue, and
    an error from that [done] leaves the trap as it is. *)
Theorem failed_pop_cycle (this : Crawler) (loop : string) (t : Trace) (e : Error) :
  let started := t ++ [ELog verbose "Started getRequest "] in
  pop (queues this) started = Rejected e ->
  let request := fst (snd (processOne this loop t)) in
  type request = Some "_errorTrap" /\ url request = None
  /\ shouldSkip request = true /\ shouldRequeue request = false
  /\ message request = Caught e
  /\ attemptCount request = None
  /\ exists cycle : Trace,
       snd (snd (processOne this loop t)) = (started ++ [EPop]) ++ cycle
       /\ exists trap : Request,
            calls cycle = [EDone trap] /\ type trap = Some "_errorTrap".
Proof.
  cbv zeta. intros Hpop.
  unfold processOne, _getRequest, _getRequestWork. rewrite Hpop.
  unfold completion, _completeRequest, _releaseLock, _deleteFromQueue,
    _errorHandler, _logOutcome, now, errorTrap.
  promise.
  destruct (locker this) as [l|]; simpl;
    destruct (done (queues this) _ _) as [[]|e']; simpl;
    (repeat (split; [reflexivity|]));
    (eexists; split; [rewrite <- !app_assoc; simpl; reflexivity|]);
    (eexists; split; [reflexivity | reflexivity]).
Qed.

Lemma failed_pop_cycle_witness :
  message (fst (snd (processOne brokerDown "0" []))) = Caught sigh.
Proof.
  exact (proj1 (proj2 (proj2 (proj2 (proj2
           (failed_pop_cycle brokerDown "0" [] sigh eq_refl)))))).
Defined.

(** ** From fetch to store *)

Lemma skipped_stage_convert (this : Crawler) (request : Request) (t : Trace) :
  shouldSkip request = true ->
  _convertToDocument this (request, t) = (Fulfilled tt, (request, t))
  /\ _processDocument this (request, t) = (Fulfilled tt, (request, t))
  /\ _storeDocument this (request, t) = (Fulfilled tt, (request, t))
  /\ _fetch this (request, t) = (Fulfilled tt, (request, t)).
Proof.
  intros Hskip.
  split; [|split; [|split]];
    [unfold _convertToDocument | unfold _processDocument
    | unfold _storeDocument | unfold _fetch];
    unfold mbind at 1; unfold Promise_bind, then_, then2, this_request;
    cbn [fst snd]; rewrite Hskip; reflexivity.
Qed.

Lemma bind_fulfilled {A B} (p : Promise A) (f : A -> Promise B)
    (h h' : Heap) (a : A) :
  p h = (Fulfilled a, h') -> (p ≫= f) h = f a h'.
Proof.
  intros Hp. unfold mbind, Promise_bind, then_, then2. rewrite Hp. reflexivity.
Qed.

Lemma bind_rejected {A B} (p : Promise A) (f : A -> Promise B)
    (h h' : Heap) (e : Error) :
  p h = (Rejected e, h') -> (p ≫= f) h = (Rejected e, h').
Proof.
  intros Hp. unfold mbind, Promise_bind, then_, then2. rewrite Hp. reflexivity.
Qed.

Lemma skipped_rest (this : Crawler) (request : Request) (t : Trace) :
  shouldSkip request = true ->
  (_convertToDocument this;; _processDocument this;; _storeDocument this) (request, t)
  = (Fulfilled tt, (request, t)).
Proof.
  intros Hskip.
  destruct (skipped_stage_convert this request t Hskip) as (Hc & Hp & Hs & _).
  rewrite (bind_fulfilled _ _ _ _ _ Hc), (bind_fulfilled _ _ _ _ _ Hp). exact Hs.
Qed.

Lemma logs_are_not_calls (l : Trace) :
  Forall (fun e => isLog e = true) l -> calls l = [].
Proof.
  unfold calls. induction 1 as [|ev rest Hev _ IH]; [reflexivity|].
  simpl. rewrite Hev. exact IH.
Qed.

(** X5. Nothing is converted, processed or stored without a freshly fetched
    document.  A request already marked to be skipped goes through the
    stages from fetch to store untouched and without any call.  Otherwise
    the fetcher is called once, on the request.  When it fails the stages
    reject with its error and the request is as the fetcher left it: what
    the fetcher wrote to it before failing stays.  When it hands the
    request back marked to be skipped (an unmodified resource, say) the
    request comes out as the fetcher left it.  In both cases the fetch is
    the only call made. *)
Theorem nothing_stored_without_a_fetched_document
    (this : Crawler) (request : Request) (t : Trace) :
  let started := ELog verbose ("Started fetching " +:+ toUniqueString this request) in
  if shouldSkip request
  then fetchToStore this (request, t) = (Fulfilled tt, (request, t))
  else
    let answer := fetcher_fetch this request (t ++ [started]) in
    let fetched := snd answer in
    match fst answer with
    | Rejected e =>
        exists extra : Trace,
          fetchToStore this (request, t) = (Rejected e, (fetched, t ++ extra))
          /\ calls extra = [EFetch request]
    | Fulfilled _ =>
        shouldSkip fetched = true ->
        exists extra : Trace,
          fetchToStore this (request, t) = (Fulfilled tt, (fetched, t ++ extra))
          /\ calls extra = [EFetch request]
    end.
Proof.
  cbv zeta. unfold fetchToStore.
  destruct (shouldSkip request) eqn:Hskip.
  - destruct (skipped_stage_convert this request t Hskip) as (_ & _ & _ & Hf).
    rewrite (bind_fulfilled _ _ _ _ _ Hf). apply skipped_rest, Hskip.
  - assert (Hfetch : _fetch this (request, t)
                     = _logStartEnd this "fetching"
                         (callOn (EFetch request) (fetcher_fetch this request))
                         (request, t)).
    { unfold _fetch. unfold mbind at 1. unfold Promise_bind, then_, then2,
        this_request. cbn [fst snd]. rewrite Hskip. reflexivity. }
    destruct (logStartEnd_result this "fetching"
                (callOn (EFetch request) (fetcher_fetch this request)) request t)
      as (after & Hlogs & Hlogged).
    cbv zeta in Hlogged. rewrite <- Hfetch in Hlogged.
    pose proof (logs_are_not_calls after Hlogs) as Hquiet.
    change ("Started " +:+ "fetching" +:+ " " +:+ toUniqueString this request)
      with ("Started fetching " +:+ toUniqueString this request) in Hlogged.
    set (t0 := t ++ [ELog verbose ("Started fetching " +:+ toUniqueString this request)])
      in *.
    unfold callOn in Hlogged. cbn [fst snd] in Hlogged.
    destruct (fetcher_fetch this request t0) as [[[]|e] fetched];
      cbn [fst snd] in *.
    + intros Hmarked. eexists. split.
      * rewrite (bind_fulfilled _ _ _ _ _ Hlogged).
        rewrite (skipped_rest this fetched _ Hmarked).
        subst t0. rewrite <- !app_assoc. reflexivity.
      * unfold calls in *. simpl. rewrite Hquiet. reflexivity.
    + eexists. split.
      * rewrite (bind_rejected _ _ _ _ _ Hlogged).
        subst t0. rewrite <- !app_assoc. reflexivity.
      * unfold calls in *. simpl. rewrite Hquiet. reflexivity.
Qed.

Lemma nothing_stored_without_a_fetched_document_witness :
  (exists extra : Trace,
     fetchToStore nothingNew (repoRequest, [])
     = (Fulfilled tt, (markSkip "Unmodified" NoMessage repoRequest, [] ++ extra))
     /\ calls extra = [EFetch repoRequest])
  /\ (exists extra : Trace,
        fetchToStore serverError (repoRequest, [])
        = (Rejected {| error_message :=
                         "Code: 500 for: https://api.example.com/repos/acme/widget" |},
           (addMeta {[ "status" := JNum 500 ]} repoRequest, [] ++ extra))
        /\ calls extra = [EFetch repoRequest]).
Proof.
  split.
  - exact ((nothing_stored_without_a_fetched_document nothingNew repoRequest []
            : shouldSkip (markSkip "Unmodified" NoMessage repoRequest) = true ->
              exists extra : Trace,
                fetchToStore nothingNew (repoRequest, [])
                = (Fulfilled tt,
                   (markSkip "Unmodified" NoMessage repoRequest, [] ++ extra))
                /\ calls extra = [EFetch repoRequest]) eq_refl).
  - exact (nothing_stored_without_a_fetched_document serverError repoRequest []).
Defined.

(** ** Conversion and storage *)




(** X7. [_storeDocument] calls [store.upsert] exactly when the request is
    neither marked to be skipped nor vetoed by its policy's [shouldSave], and
    then once, with the request's document.  When the store answers, the
    answer is attached as [upsert] and the latency is added to [meta] under
    [store]; the document, the identity, the lease and the promises of the
    request are untouched.  When the store fails, the stage rejects with the
    store's error and the request is left exactly as it was. *)
Theorem storeDocument_outcomes (this : Crawler) (request : Request) (t : Trace) :
  if shouldSkip request || negb (shouldSave this request)
  then _storeDocument this (request, t) = (Fulfilled tt, (request, t))
  else
    let t' := t ++ [EUpsert (document request)] in
    match store_upsert this (document request) t with
    | Fulfilled receipt =>
        exists stored : Request,
          _storeDocument this (request, t) = (Fulfilled tt, (stored, t'))
          /\ upsert stored = Some receipt
          /\ meta stored
             = {[ "store" := JNum (Date_now this t' - Date_now this t) ]} ∪ meta request
          /\ document stored = document request
          /\ _createQueuable stored = _createQueuable request
          /\ lock stored = lock request /\ promises stored = promises request
          /\ processControl stored = processControl request
    | Rejected e => _storeDocument this (request, t) = (Rejected e, (request, t'))
    end.
Proof.
  unfold _storeDocument, now. promise.
  destruct (shouldSkip request || negb (shouldSave this request)); [reflexivity|].
  simpl. destruct (store_upsert this (document request) t) as [receipt|e]; simpl;
    [|reflexivity].
  eexists. split; [reflexivity|]. repeat split.
Qed.

(** ** Locks *)

(** X8. Acquiring and then releasing, on a request that holds no lease:
    both steps always fulfil and the request ends without a lease.  Without
    a url or without a lock service no call is made.  Otherwise the lock
    service is asked once; [unlock] is called only when it granted a truthy
    lease, once, and with that very lease.  A lease that is falsy in
    JavaScript (0, the empty string, null) is never given back. *)
Theorem lock_discipline (this : Crawler) (request : Request) (t : Trace) :
  truthy (lock request) = false ->
  let outcome := (_acquireLock this;; _releaseLock this) (request, t) in
  let after := snd (snd outcome) in
  fst outcome = Fulfilled tt
  /\ truthy (lock (fst (snd outcome))) = false
  /\ match locker this with
     | Some l =>
         if truthy_str (url request) then
           let target := default "" (url request) in
           let ttl := num_or (processingTtl (options this)) 60000 in
           match locker_lock l target ttl t with
           | Fulfilled lease =>
               calls (appended t after)
               = if truthy lease then [ELock target ttl; EUnlock lease]
                 else [ELock target ttl]
           | Rejected _ => after = t ++ [ELock target ttl]
           end
         else after = t
     | None => after = t
     end.
Proof.
  intros Hfree. cbv zeta.
  unfold _acquireLock, _releaseLock. promise.
  destruct (locker this) as [l|] eqn:Hlocker.
  - destruct (url request) as [target|] eqn:Hurl; simpl.
    + destruct (target =? "")%string eqn:Hempty; simpl.
      * rewrite ?Hlocker, ?Hfree. repeat split; assumption.
      * destruct (locker_lock l target _ t) as [lease|e]; simpl.
        -- rewrite ?Hlocker. destruct (truthy lease) eqn:Hlease; simpl.
           ++ destruct (locker_unlock l lease _) as [[]|e]; simpl;
                (split; [reflexivity|]); (split; [reflexivity|]);
                unfold calls; rewrite <- ?app_assoc, appended_app; reflexivity.
           ++ split; [reflexivity|]. split; [exact Hlease|].
              unfold calls. rewrite appended_app. reflexivity.
        -- destruct (String.prefix "Exceeded" (error_message e)); simpl;
             rewrite ?Hlocker, ?Hfree; repeat split; assumption.
    + rewrite ?Hlocker, ?Hfree. repeat split; assumption.
  - destruct (url request); simpl; rewrite ?Hlocker; repeat split; assumption.
Qed.

Lemma lock_discipline_witness :
  calls (snd (snd ((_acquireLock idleCrawler;; _releaseLock idleCrawler) (repoRequest, []))))
  = [ELock "https://api.example.com/repos/acme/widget" 60000; EUnlock (JNum 42)].
Proof.
  exact (proj2 (proj2 (lock_discipline idleCrawler repoRequest [] eq_refl))).
Defined.

(** ** The organisation allowlist *)

Lemma lower_ascii_idempotent (c : ascii) :
  lower_ascii (lower_ascii c) = lower_ascii c.
Proof.
  destruct c as [[] [] [] [] [] [] [] []]; reflexivity.
Qed.

Lemma toLowerCase_idempotent (s : string) :
  toLowerCase (toLowerCase s) = toLowerCase s.
Proof.
  induction s as [|c s IH]; [reflexivity|].
  simpl. rewrite lower_ascii_idempotent, IH. reflexivity.
Qed.

Lemma split_on_pieces (sep : ascii) (s : string) :
  length (split_on sep s) = S (occurrences sep s).
Proof.
  induction s as [|c s IH]; [reflexivity|].
  simpl. destruct (Ascii.eqb c sep); simpl; [rewrite IH; reflexivity|].
  destruct (split_on sep s) as [|piece rest]; [discriminate IH|].
  simpl in *. exact IH.
Qed.

Lemma existsb_eqb_In (x : string) (l : list string) :
  existsb (String.eqb x) l = true <-> In x l.
Proof.
  rewrite existsb_exists. split.
  - intros (y & Hin & Heq). apply String.eqb_eq in Heq. subst y. exact Hin.
  - intros Hin. exists x. split; [exact Hin | apply String.eqb_refl].
Qed.

(** X9. [_shouldInclude] lets everything through when the allowlist is
    absent or empty, and every request whose type is not [repo], [repos] or
    [org].  For those three types it throws exactly when the url has no path
    or its path has fewer than two slashes; otherwise it takes the text
    between the second and the third slash as the organisation, lowers its
    case, and includes the request exactly when that is an entry of the
    list.  The entries themselves are not lowered: an entry with a capital
    letter matches nothing, and a list of such entries excludes every
    organisation. *)
Theorem shouldInclude_allowlist (this : Crawler) (ty target : string) :
  match orgList (options this) with
  | None | Some [] => _shouldInclude this ty target = Fulfilled true
  | Some orgs =>
      if negb (orgScoped ty) then _shouldInclude this ty target = Fulfilled true
      else
        match URL_path this target with
        | None => exists e, _shouldInclude this ty target = Rejected e
        | Some path =>
            if (occurrences "/" path <? 2)%nat
            then exists e, _shouldInclude this ty target = Rejected e
            else exists (org : string) (included : bool),
                   nth_error (split_on "/" path) 2 = Some org
                   /\ _shouldInclude this ty target = Fulfilled included
                   /\ (included = true <-> In (toLowerCase org) orgs)
                   /\ (forall entry : string,
                         In entry orgs -> toLowerCase entry <> entry ->
                         toLowerCase org <> entry)
                   /\ (Forall (fun entry => toLowerCase entry <> entry) orgs ->
                       included = false)
        end
  end.
Proof.
  unfold _shouldInclude, orgScoped.
  destruct (orgList (options this)) as [[|first others]|]; try reflexivity.
  set (orgs := first :: others).
  destruct (String.eqb ty "repo" || String.eqb ty "repos" || String.eqb ty "org");
    cbn [negb]; [|reflexivity].
  destruct (URL_path this target) as [path|]; [|eexists; reflexivity].
  pose proof (split_on_pieces "/" path) as Hpieces.
  destruct (Nat.ltb_spec (occurrences "/" path) 2) as [Hshort|Hlong].
  - assert (Hnone : nth_error (split_on "/" path) 2 = None)
      by (apply nth_error_None; lia).
    rewrite Hnone. eexists. reflexivity.
  - destruct (nth_error (split_on "/" path) 2) as [org|] eqn:Hnth;
      [|apply nth_error_None in Hnth; lia].
    assert (Hcapital : forall entry : string,
              In entry orgs -> toLowerCase entry <> entry -> toLowerCase org <> entry).
    { intros entry _ Hcap Heq. apply Hcap. rewrite <- Heq.
      apply toLowerCase_idempotent. }
    exists org, (existsb (String.eqb (toLowerCase org)) orgs).
    split; [reflexivity|]. split; [reflexivity|].
    split; [apply existsb_eqb_In|]. split; [exact Hcapital|].
    intros Hall. apply not_true_is_false. intros Hin.
    apply existsb_eqb_In in Hin.
    exact (Hcapital _ Hin (proj1 (List.Forall_forall _ _) Hall _ Hin) eq_refl).
Qed.

Lemma shouldInclude_allowlist_witness :
  _shouldInclude capitalised "repo" "https://api.example.com/repos/Contoso/site"
  = Fulfilled false.
Proof.
  destruct (shouldInclude_allowlist capitalised "repo"
              "https://api.example.com/repos/Contoso/site")
    as (org & included & _ & Hrun & _ & _ & Hall).
  rewrite Hrun. f_equal. apply Hall.
  repeat constructor. discriminate.
Defined.

(** ** Filtering on the way in and on the way out *)

(** X10. [queue], which handlers use to enqueue, and [_filter], which every
    dequeued request goes through, treat a request alike.  A request without
    url or type is dead-lettered by both ([queue] then throws, [_filter]
    marks it skipped).  A well-formed request that the allowlist includes is
    pushed by [queue], once and as its queuable projection, and passes
    [_filter] unchanged; one that the allowlist excludes is neither pushed
    nor dead-lettered by [queue] and is marked [Filtered] by [_filter]
    without any call; and when the allowlist check throws, both throw the
    same error and make no call. *)
Theorem filter_and_queue_agree
    (this : Crawler) (request : Request) (name : string) (t : Trace) :
  let queued := queue this request name t in
  let filtered := _filter this (request, t) in
  if malformed request then
    calls (appended t (snd queued)) = [EPushDead (_createQueuable request)]
    /\ snd (snd filtered) = t ++ [EPushDead (_createQueuable request)]
    /\ isFulfilled (fst queued) = false
    /\ fst filtered = Fulfilled tt /\ shouldSkip (fst (snd filtered)) = true
  else
    match _shouldInclude this (default "" (type request)) (default "" (url request)) with
    | Fulfilled true =>
        snd queued = t ++ [EPush [_createQueuable request] name]
        /\ fst queued
           = Fulfilled (PushPromise (push (queues this) [_createQueuable request] name t))
        /\ filtered = (Fulfilled tt, (request, t))
    | Fulfilled false =>
        calls (appended t (snd queued)) = []
        /\ fst queued = Fulfilled NothingQueued
        /\ filtered = (Fulfilled tt, (markSkip "Filtered" NoMessage request, t))
    | Rejected e =>
        queued = (Rejected e, t) /\ filtered = (Rejected e, (request, t))
    end.
Proof.
  cbv zeta. unfold malformed, queue, _filter, _queueDead. promise.
  destruct (negb (truthy_str (url request)) || negb (truthy_str (type request))).
  - simpl. unfold calls. rewrite appended_app. repeat split.
  - destruct (_shouldInclude this _ _) as [[|]|e]; simpl.
    + repeat split.
    + unfold calls. rewrite appended_app. repeat split.
    + split; reflexivity.
Qed.

(** ** Taking a request off the queues *)

(** X11. [_getRequestWork] on a popped request keeps its type, url, policy
    and attempt count, gives it a context when it has none, drops whatever
    promises it carried, stamps the start time and the loop's name, and
    always fulfils.  After the pop it calls the lock service at most once
    and nothing else; the lease of the request changes only when the lock
    service grants one. *)
Theorem getRequestWork_prepares
    (this : Crawler) (loop : string) (t : Trace) (popped : Request) :
  pop (queues this) t = Fulfilled (Some popped) ->
  exists (request : Request) (t' : Trace),
    _getRequestWork this loop t = (Fulfilled tt, Some request, t')
    /\ type request = type popped /\ url request = url popped
    /\ policy request = policy popped /\ attemptCount request = attemptCount popped
    /\ context request = Some (default ∅ (context popped))
    /\ promises request = []
    /\ start request = Some (Date_now this (t ++ [EPop]))
    /\ loopName request = Some loop
    /\ ((t' = t ++ [EPop] /\ lock request = lock popped)
        \/ exists (l : LockService) (target : string) (ttl : Z),
             locker this = Some l /\ url popped = Some target
             /\ t' = t ++ [EPop; ELock target ttl]
             /\ match locker_lock l target ttl (t ++ [EPop]) with
                | Fulfilled lease => lock request = lease
                | Rejected _ => lock request = lock popped
                                /\ shouldRequeue request = true
                end).
Proof.
  intros Hpop. unfold _getRequestWork. rewrite Hpop.
  unfold _acquireLock. promise.
  destruct (url popped) as [target|] eqn:Hurl;
    [|eexists _, _; split; [reflexivity|]; simpl; rewrite ?Hurl; repeat (split; [reflexivity|]); left; split; reflexivity].
  destruct (locker this) as [l|] eqn:Hlocker;
    [|eexists _, _; split; [reflexivity|]; simpl; rewrite ?Hurl; repeat (split; [reflexivity|]); left; split; reflexivity].
  destruct (negb (target =? "")%string);
    [|eexists _, _; split; [reflexivity|]; simpl; rewrite ?Hurl; repeat (split; [reflexivity|]); left; split; reflexivity].
  simpl.
  destruct (locker_lock l target _ (t ++ [EPop])) as [lease|e] eqn:Hlock; simpl.
  - eexists _, _. split; [reflexivity|]. simpl. rewrite ?Hurl. repeat (split; [reflexivity|]).
    right. exists l, target, (num_or (processingTtl (options this)) (60 * 1000)).
    split; [reflexivity|]. split; [reflexivity|].
    split; [rewrite <- app_assoc; reflexivity|]. rewrite Hlock. reflexivity.
  - destruct (String.prefix "Exceeded" (error_message e)); simpl;
      (eexists _, _; split; [reflexivity|]; simpl; rewrite ?Hurl; repeat (split; [reflexivity|]);
       right; exists l, target, (num_or (processingTtl (options this)) (60 * 1000));
       split; [reflexivity|]; split; [reflexivity|];
       split; [rewrite <- app_assoc; reflexivity|]; rewrite Hlock; split; reflexivity).
Qed.

Lemma getRequestWork_prepares_witness :
  exists (request : Request) (t' : Trace),
    _getRequestWork contended "0" [] = (Fulfilled tt, Some request, t')
    /\ promises request = [] /\ loopName request = Some "0".
Proof.
  destruct (getRequestWork_prepares contended "0" [] repoRequest eq_refl)
    as (request & t' & Hrun & _ & _ & _ & _ & _ & Hpromises & _ & Hname & _).
  exists request, t'. split; [exact Hrun|]. split; [exact Hpromises | exact Hname].
Defined.

(** ** Requests the processor does not handle *)

Lemma getHandler_eq (this : Crawler) (request : Request) (t : Trace) :
  _getHandler this (request, t) = (handlerFor this request, (request, t)).
Proof.
  unfold handlerFor, _getHandler. promise.
  destruct (query_page (deps this) (url request)) as [pageParam|e]; [|reflexivity].
  destruct (truthy_str pageParam); [reflexivity|].
  destruct (truthy_str (getCollectionType (deps this) request)); reflexivity.
Qed.

Lemma set_document_same (request : Request) :
  set_document (document request) request = request.
Proof. destruct request; reflexivity. Qed.

(** [process] when no handler runs. *)
Lemma process_unhandled (this : Crawler) (request : Request) (t : Trace) :
  (result ← process this; mutate (set_document result)) (request, t)
  = match handlerFor this request with
    | Rejected e => (Rejected e, (request, t))
    | Fulfilled None =>
        (Fulfilled tt,
         (markSkip "Skip" (Text ("No handler found for request type: "
                                 +:+ show (type request))) request, t))
    | Fulfilled (Some handler) =>
        if vetoed this request
        then (Fulfilled tt,
              (markSkip "Excluded" (Text "Traversal policy excluded this resource")
                        request, t))
        else (result ← (result ← handler;
                        match _metadata result with
                        | None => throw (TypeError
                                    "Cannot set property 'version' of undefined")
                        | Some md => Q (Some (setVersion result md))
                        end);
              mutate (set_document result)) (request, t)
    end.
Proof.
  unfold process, vetoed.
  unfold mbind at 1 2. unfold Promise_bind at 1 2. unfold then_ at 1 2.
  unfold then2 at 1 2. rewrite getHandler_eq.
  destruct (handlerFor this request) as [[handler|]|e]; [| |reflexivity].
  - promise. unfold deps.
    destruct (shouldProcess (processor this) (policy request) request
                Processor_version); simpl; [reflexivity|].
    rewrite <- (set_document_same request) at 3. reflexivity.
  - promise. rewrite <- (set_document_same request) at 3. reflexivity.
Qed.

(** X12. A request for which the processor has no handler, or which its
    traversal policy excludes, is marked to be skipped and nothing else
    happens to it: no handler runs, its document stays what the fetch
    produced, and the store is not called.  When picking the handler throws
    (the url cannot be parsed), the processing stage rejects with that
    error, leaves the request as it was, and the store is not reached. *)
Theorem unhandled_requests_are_not_stored
    (this : Crawler) (request : Request) (t : Trace) :
  shouldSkip request = false ->
  exists extra : Trace,
    calls extra = []
    /\ match handlerFor this request with
       | Rejected e =>
           processAndStore this (request, t) = (Rejected e, (request, t ++ extra))
       | Fulfilled None =>
           processAndStore this (request, t)
           = (Fulfilled tt,
              (markSkip "Skip" (Text ("No handler found for request type: "
                                      +:+ show (type request))) request,
               t ++ extra))
       | Fulfilled (Some _) =>
           vetoed this request = true ->
           processAndStore this (request, t)
           = (Fulfilled tt,
              (markSkip "Excluded" (Text "Traversal policy excluded this resource")
                        request,
               t ++ extra))
       end.
Proof.
  intros Hlive. unfold processAndStore.
  assert (Hstage : _processDocument this (request, t)
                   = _logStartEnd this "processing"
                       (result ← process this; mutate (set_document result))
                       (request, t)).
  { unfold _processDocument. unfold mbind at 1. unfold Promise_bind, then_, then2,
      this_request. cbn [fst snd]. rewrite Hlive. reflexivity. }
  destruct (logStartEnd_result this "processing"
              (result ← process this; mutate (set_document result)) request t)
    as (after & Hlogs & Hlogged).
  cbv zeta in Hlogged. rewrite <- Hstage in Hlogged.
  rewrite process_unhandled in Hlogged.
  pose proof (logs_are_not_calls after Hlogs) as Hquiet.
  set (started := ELog verbose ("Started " +:+ "processing" +:+ " "
                                +:+ toUniqueString this request)) in *.
  assert (Hextra : calls ([started] ++ after) = []).
  { unfold calls in *. subst started. simpl. exact Hquiet. }
  exists ([started] ++ after). split; [exact Hextra|].
  rewrite app_assoc.
  destruct (handlerFor this request) as [[handler|]|e].
  - intros Hveto. rewrite Hveto in Hlogged. cbn [fst snd] in Hlogged.
    rewrite (bind_fulfilled _ _ _ _ _ Hlogged).
    apply skipped_stage_convert. reflexivity.
  - cbn [fst snd] in Hlogged.
    rewrite (bind_fulfilled _ _ _ _ _ Hlogged).
    apply skipped_stage_convert. reflexivity.
  - cbn [fst snd] in Hlogged.
    exact (bind_rejected _ _ _ _ _ Hlogged).
Qed.

Lemma unhandled_requests_are_not_stored_witness :
  exists extra : Trace,
    calls extra = []
    /\ processAndStore handlerless (repoRequest, [])
       = (Fulfilled tt,
          (markSkip "Skip" (Text "No handler found for request type: repo")
                    repoRequest,
           [] ++ extra)).
Proof.
  exact (unhandled_requests_are_not_stored handlerless repoRequest [] eq_refl).
Defined.

(** ** The outcome line *)

Lemma logOutcome_eq (this : Crawler) (request : Request) (t : Trace) :
  let time := match start request with
              | Some began => JNum (Date_now this t - began)
              | None => JNull
              end in
  exists text : string,
    _logOutcome this (request, t)
    = (Fulfilled tt,
       (if failed request then request else addMeta {[ "time" := time ]} request,
        t ++ [ELog (if failed request then error else info) text])).
Proof.
  unfold _logOutcome, now, failed. promise.
  destruct (outcome request) as [o|]; simpl.
  - destruct (String.eqb_spec o "") as [->|Hne]; simpl.
    + eexists. reflexivity.
    + destruct (String.eqb o "Error"); eexists; reflexivity.
  - eexists. reflexivity.
Qed.

Lemma completion_reports (this : Crawler) (stages : Promise unit) (h : Heap) :
  let request := fst (snd (completion this stages h)) in
  exists (before : Trace) (text : string),
    snd (snd (completion this stages h))
    = before ++ [ELog (if failed request then error else info) text]
    /\ (failed request = true \/ is_Some (meta request !! "time")).
Proof.
  cbv zeta. unfold completion.
  set (inner := catch (catch stages _errorHandler;; _completeRequest this false)
                      _errorHandler).
  assert (Hinner : exists h1 : Heap, inner h = (Fulfilled tt, h1)).
  { unfold inner, catch, then2.
    match goal with |- context [let (_, _) := ?p in _] => destruct p as [[[]|e] h'] end.
    - eexists. reflexivity.
    - pose proof (errorHandler_fulfils e h') as [Hf _].
      destruct (_errorHandler e h') as [s h1]. simpl in Hf. subst s.
      eexists. reflexivity. }
  destruct Hinner as ([request t] & Hinner).
  destruct (logOutcome_eq this request t) as (text & Hlog). cbv zeta in Hlog.
  assert (Hall : catch (inner;; _logOutcome this) _errorHandler h
                 = _logOutcome this (request, t)).
  { unfold catch at 1. unfold then2 at 1.
    rewrite (bind_fulfilled _ _ _ _ _ Hinner), Hlog. reflexivity. }
  rewrite Hall, Hlog. cbn [fst snd].
  destruct (failed request) eqn:Hfailed.
  - rewrite Hfailed. exists t, text. split; [reflexivity|]. left. reflexivity.
  - assert (Hsame : failed (addMeta {[ "time" := match start request with
                                                 | Some began =>
                                                     JNum (Date_now this t - began)
                                                 | None => JNull
                                                 end ]} request) = false)
      by exact Hfailed.
    rewrite Hsame. exists t, text. split; [reflexivity|].
    right. unfold addMeta. simpl.
    rewrite lookup_union_l', lookup_singleton_eq; [eexists; reflexivity|].
    rewrite lookup_singleton_eq. eexists; reflexivity.
Qed.

(** X13. Every cycle ends by reporting its outcome: whatever happened in
    it, the last thing a cycle does is write one log line, at level [error]
    when the request it worked on ended with outcome [Error] and at level
    [info] otherwise; in the latter case the request leaves the cycle with
    the elapsed [time] recorded in its [meta]. *)
Theorem every_cycle_reports_its_outcome (this : Crawler) (loop : string) (t : Trace) :
  let request := fst (snd (processOne this loop t)) in
  exists (before : Trace) (text : string),
    snd (snd (processOne this loop t))
    = before ++ [ELog (if failed request then error else info) text]
    /\ (failed request = true \/ is_Some (meta request !! "time")).
Proof.
  cbv zeta. unfold processOne.
  destruct (_getRequest this loop t) as [[s [request|]] t1];
    apply completion_reports.
Qed.

(** ** The supervisor at rest *)

Lemma stopLoops_short (n : nat) :
  forall set halted : list CrawlerLoop.t,
    (length set < n)%nat ->
    exists e : Error, CrawlerService.stopLoops n set halted = Rejected e.
Proof.
  induction n as [|n IH]; intros set halted Hlt; [lia|].
  destruct set as [|loop rest]; simpl.
  - eexists. reflexivity.
  - apply IH. simpl in Hlt. lia.
Qed.

Lemma filter_all {A} (f : A -> bool) (l : list A) :
  Forall (fun x => f x = true) l -> List.filter f l = l.
Proof.
  induction 1 as [|x l Hx _ IH]; [reflexivity|].
  simpl. rewrite Hx, IH. reflexivity.
Qed.

Lemma spawned_run (indices : list nat) :
  Forall (fun loop => CrawlerLoop.running loop = true) (map spawnedLoop indices).
Proof.
  induction indices as [|i rest IH]; constructor; [reflexivity | exact IH].
Qed.

(** A loop set in which every loop runs and whose size is the target count
    is left alone. *)
Lemma ensureLoops_at_rest (this : CrawlerService.t) :
  Forall (fun loop => CrawlerLoop.running loop = true) (CrawlerService.loops this) ->
  Z.of_nat (length (CrawlerService.loops this)) = CrawlerService.count this ->
  CrawlerService.ensureLoops this
  = Fulfilled {| CrawlerService.service := this;
                 CrawlerService.stopped := []; CrawlerService.spawned := [] |}.
Proof.
  intros Hrun Hsize. unfold CrawlerService.ensureLoops.
  rewrite (filter_all _ _ Hrun), status_counts. simpl.
  rewrite Hsize, Z.sub_diag. simpl. destruct this; reflexivity.
Qed.

(** X14. [ensureLoops] throws exactly when the target count is negative
    (it runs out of loops to stop).  Otherwise every loop it leaves in the
    set is running, and the set is at rest: reconciling again, which is all
    that [CrawlerService.stop] does, starts no loop, stops no loop and
    leaves the set as it is. *)
Theorem reconciled_service_is_at_rest (this : CrawlerService.t) :
  match CrawlerService.ensureLoops this with
  | Rejected _ => CrawlerService.count this < 0
  | Fulfilled result =>
      let settled := CrawlerService.service result in
      0 <= CrawlerService.count this
      /\ Forall (fun loop => CrawlerLoop.running loop = true)
                (CrawlerService.loops settled)
      /\ CrawlerService_stop settled
         = Fulfilled {| CrawlerService.service := settled;
                        CrawlerService.stopped := [];
                        CrawlerService.spawned := [] |}
  end.
Proof.
  set (kept := List.filter CrawlerLoop.running (CrawlerService.loops this)).
  assert (Hkept : Forall (fun loop => CrawlerLoop.running loop = true) kept).
  { apply List.Forall_forall. intros loop Hin. apply filter_In in Hin. apply Hin. }
  unfold CrawlerService.ensureLoops. fold kept. rewrite status_counts. simpl.
  destruct (Z.ltb_spec (CrawlerService.count this - Z.of_nat (length kept)) 0)
    as [Hexcess|Hmissing].
  - destruct (Z_lt_le_dec (CrawlerService.count this) 0) as [Hneg|Hcount].
    + destruct (stopLoops_short
                  (Z.to_nat (Z.abs (CrawlerService.count this
                                    - Z.of_nat (length kept)))) kept [])
        as (e & ->); [lia | exact Hneg].
    + rewrite stopLoops_front by lia. cbv zeta. simpl.
      split; [exact Hcount|].
      assert (Hrest : Forall (fun loop => CrawlerLoop.running loop = true)
                        (skipn (Z.to_nat (Z.abs (CrawlerService.count this
                                                 - Z.of_nat (length kept)))) kept))
        by (apply Forall_drop, Hkept).
      split; [exact Hrest|].
      apply ensureLoops_at_rest; simpl; [exact Hrest|].
      rewrite length_skipn. lia.
  - rewrite startLoops_back. cbv zeta. simpl.
    split; [lia|].
    assert (Hall : Forall (fun loop => CrawlerLoop.running loop = true)
                     (kept ++ map spawnedLoop
                        (seq 0 (Z.to_nat (CrawlerService.count this
                                          - Z.of_nat (length kept))))))
      by (apply Forall_app; split; [exact Hkept | apply spawned_run]).
    split; [exact Hall|].
    apply ensureLoops_at_rest; simpl; [exact Hall|].
    rewrite length_app, length_map, length_seq. lia.
Qed.

(** ** The life of a loop object *)

Lemma loopCall_advances (loopName : string) (loop : CrawlerLoop.t) (c : LoopCall) :
  wellFormedLoop loopName loop ->
  wellFormedLoop loopName (loopCall loop c)
  /\ (stage loop <= stage (loopCall loop c))%nat
  /\ (delay (CrawlerLoop.options loop) = STOP ->
      delay (CrawlerLoop.options (loopCall loop c)) = STOP).
Proof.
  intros (Hname & Hcur & Hstate). unfold wellFormedLoop, stage.
  destruct loop as [[n d cd hd] st]. simpl in *.
  destruct c; unfold loopCall, CrawlerLoop.run, CrawlerLoop.stop, CrawlerLoop_done;
    simpl; destruct st as [[| |]|]; simpl; try destruct hd; simpl;
    intuition (try discriminate; try lia; auto).
Qed.

Lemma loopCalls_advance (loopName : string) (cs : list LoopCall) :
  forall loop : CrawlerLoop.t,
    wellFormedLoop loopName loop ->
    wellFormedLoop loopName (loopCalls loop cs)
    /\ (stage loop <= stage (loopCalls loop cs))%nat
    /\ (delay (CrawlerLoop.options loop) = STOP ->
        delay (CrawlerLoop.options (loopCalls loop cs)) = STOP).
Proof.
  induction cs as [|c cs IH]; intros loop Hwf; simpl.
  - split; [exact Hwf|]. split; [lia | auto].
  - destruct (loopCall_advances loopName loop c Hwf) as (Hwf' & Hstage & Hdelay).
    destruct (IH _ Hwf') as (Hwf'' & Hstage' & Hdelay').
    split; [exact Hwf''|]. split; [lia | auto].
Qed.

(** X15. The life of a loop object goes one way.  Take a new loop and any
    sequence of calls of [run] and [stop] and firings of its [done]
    callback, and then any further such sequence.  The loop keeps its name;
    its delay is 0 or -1 and, once -1, stays -1; it is running only with
    delay 0 and a [done] callback installed.  Once the loop has left its
    initial state, [run] throws, so a loop is started at most once, and a
    loop stopped before it was started can never be started; and once it
    has stopped running it is never running again. *)
Theorem loop_life_goes_one_way
    (loopName : string) (earlier later : list LoopCall) :
  let loop := loopCalls (CrawlerLoop.create loopName) earlier in
  let final := loopCalls loop later in
  name (CrawlerLoop.options final) = loopName
  /\ (delay (CrawlerLoop.options final) = 0
      \/ delay (CrawlerLoop.options final) = STOP)
  /\ (delay (CrawlerLoop.options loop) = STOP ->
      delay (CrawlerLoop.options final) = STOP)
  /\ (CrawlerLoop.running final = true ->
      delay (CrawlerLoop.options final) = 0
      /\ hasDone (CrawlerLoop.options final) = true)
  /\ (CrawlerLoop.state loop <> None ->
      isFulfilled (CrawlerLoop.run final) = false
      /\ (CrawlerLoop.running loop = false -> CrawlerLoop.running final = false)).
Proof.
  cbv zeta.
  assert (Hfresh : wellFormedLoop loopName (CrawlerLoop.create loopName)).
  { repeat split. }
  destruct (loopCalls_advance loopName earlier _ Hfresh) as (Hloop & _ & _).
  set (loop := loopCalls (CrawlerLoop.create loopName) earlier) in *.
  destruct (loopCalls_advance loopName later loop Hloop)
    as (Hfinal & Hstage & Hdelay).
  set (final := loopCalls loop later) in *.
  destruct Hfinal as (Hname & _ & Hstate).
  split; [exact Hname|].
  unfold CrawlerLoop.running, CrawlerLoop.run, stage in *.
  split; [destruct (CrawlerLoop.state final) as [[| |]|]; intuition auto|].
  split; [exact Hdelay|].
  split; [destruct (CrawlerLoop.state final) as [[| |]|]; intuition discriminate|].
  intros Htouched.
  destruct (CrawlerLoop.state loop) as [[| |]|];
    destruct (CrawlerLoop.state final) as [[| |]|];
    try contradiction; simpl in *; split; try reflexivity; try lia;
    intros; try discriminate; try reflexivity; try lia.
Qed.

Lemma loop_life_goes_one_way_witness :
  let loop := loopCalls (CrawlerLoop.create "0") [CallStop] in
  let final := loopCalls loop [CallRun; DoneFires; CallRun] in
  isFulfilled (CrawlerLoop.run final) = false
  /\ CrawlerLoop.running final = false
  /\ delay (CrawlerLoop.options final) = STOP.
Proof.
  pose proof (loop_life_goes_one_way "0" [CallStop] [CallRun; DoneFires; CallRun])
    as (_ & _ & Hdelay & _ & Hlater).
  cbv zeta in *.
  destruct (Hlater ltac:(discriminate)) as (Hrun & Hstill).
  split; [exact Hrun|]. split; [exact (Hstill eq_refl) | exact (Hdelay eq_refl)].
Defined.

(** ** Configuration patches *)

Lemma collect_rejected (patches : list Patch.t) (e : Error) :
  fold_left collectPatch patches (Rejected e) = Rejected e.
Proof. induction patches as [|patch rest IH]; [reflexivity | exact IH]. Qed.

Lemma collect_inherited (patches : list Patch.t) :
  forall acc : gmap string (list Patch.t),
    existsb (fun patch => inheritedProperty (patchKey patch)) patches = true ->
    isFulfilled (fold_left collectPatch patches (Fulfilled acc)) = false.
Proof.
  induction patches as [|patch rest IH]; intros acc Hsome; [discriminate Hsome|].
  simpl in *. destruct (inheritedProperty (patchKey patch)).
  - rewrite collect_rejected. reflexivity.
  - apply IH, Hsome.
Qed.

Lemma collect_grouped (patches : list Patch.t) :
  forall acc : gmap string (list Patch.t),
    existsb (fun patch => inheritedProperty (patchKey patch)) patches = false ->
    exists result : gmap string (list Patch.t),
      fold_left collectPatch patches (Fulfilled acc) = Fulfilled result
      /\ forall key : string,
           result !! key
           = match filedUnder key patches with
             | [] => acc !! key
             | group => Some (default [] (acc !! key) ++ map rebase group)
             end.
Proof.
  induction patches as [|patch rest IH]; intros acc Hnone.
  - exists acc. split; [reflexivity|]. intros key. reflexivity.
  - simpl in Hnone. apply orb_false_elim in Hnone as [Hpatch Hrest].
    simpl. rewrite Hpatch.
    destruct (IH (<[patchKey patch := default [] (acc !! patchKey patch)
                                      ++ [rebase patch]]> acc) Hrest)
      as (result & Hfold & Hgroups).
    exists result. split; [exact Hfold|].
    intros key. rewrite Hgroups. unfold filedUnder. simpl.
    destruct (String.eqb_spec (patchKey patch) key) as [<-|Hother].
    + rewrite lookup_insert_eq. simpl.
      destruct (List.filter _ rest) as [|next group].
      * reflexivity.
      * rewrite <- app_assoc. reflexivity.
    + rewrite lookup_insert_ne by exact Hother. reflexivity.
Qed.

(** X16. [_collectPatches] files every patch under the second segment of
    its path: the value under a key is the list of the patches with that
    key, in the order they came and each with its path rewritten, and a key
    no patch has is absent.  It throws exactly when some patch has a key
    that an object inherits from [Object.prototype] ([constructor],
    [toString], ...). *)
Theorem collectPatches_groups_by_key (patches : list Patch.t) :
  if existsb (fun patch => inheritedProperty (patchKey patch)) patches
  then isFulfilled (_collectPatches patches) = false
  else exists result : gmap string (list Patch.t),
         _collectPatches patches = Fulfilled result
         /\ forall key : string,
              result !! key
              = match filedUnder key patches with
                | [] => None
                | group => Some (map rebase group)
                end.
Proof.
  unfold _collectPatches.
  destruct (existsb _ patches) eqn:Hsome.
  - apply collect_inherited, Hsome.
  - destruct (collect_grouped patches ∅ Hsome) as (result & Hfold & Hgroups).
    exists result. split; [exact Hfold|].
    intros key. rewrite Hgroups, lookup_empty. reflexivity.
Qed.

Lemma split_on_nonempty (sep : ascii) (s : string) : split_on sep s <> [].
Proof.
  intros Hnil. pose proof (split_on_pieces sep s) as Hlen.
  rewrite Hnil in Hlen. discriminate Hlen.
Qed.

Lemma join_split_on (sep : ascii) (s : string) : join sep (split_on sep s) = s.
Proof.
  induction s as [|c s IH]; [reflexivity|].
  cbn [split_on]. destruct (Ascii.eqb_spec c sep) as [->|Hne].
  - pose proof (split_on_nonempty sep s) as Hsome.
    destruct (split_on sep s) as [|piece rest]; [contradiction|].
    cbn [join] in *. rewrite IH. reflexivity.
  - pose proof (split_on_nonempty sep s) as Hsome.
    destruct (split_on sep s) as [|piece rest]; [contradiction|].
    cbn [join] in *. destruct rest as [|next rest].
    + rewrite IH. reflexivity.
    + rewrite <- IH. reflexivity.
Qed.

Lemma split_on_free (sep : ascii) (key rest : string) :
  occurrences sep key = 0%nat ->
  split_on sep (key +:+ String sep rest) = key :: split_on sep rest.
Proof.
  induction key as [|c key IH]; intros Hfree; simpl in *.
  - rewrite Ascii.eqb_refl. reflexivity.
  - destruct (Ascii.eqb c sep); [discriminate Hfree|].
    rewrite IH by exact Hfree. reflexivity.
Qed.

Lemma split_on_whole (sep : ascii) (key : string) :
  occurrences sep key = 0%nat -> split_on sep key = [key].
Proof.
  induction key as [|c key IH]; intros Hfree; simpl in *; [reflexivity|].
  destruct (Ascii.eqb c sep); [discriminate Hfree|].
  rewrite IH by exact Hfree. reflexivity.
Qed.

(** X17. What [_collectPatches] makes of a path.  The text before the
    first slash is dropped.  For [/key/rest] the patch is filed under [key]
    and its path becomes [/rest], so key and new path together give the old
    path back.  For [/key] the patch is filed under [key] and its path
    becomes [/], just as for [/key/]: the two cannot be told apart
    afterwards.  A path without a slash is filed under [undefined].  The
    [op] and the [value] of the patch are kept. *)
Theorem collected_path_round_trip (patch : Patch.t) (key rest : string) :
  occurrences "/" key = 0%nat ->
  (Patch.path patch = "/" +:+ key +:+ "/" +:+ rest ->
   patchKey patch = key
   /\ Patch.path (rebase patch) = "/" +:+ rest
   /\ "/" +:+ patchKey patch +:+ Patch.path (rebase patch) = Patch.path patch)
  /\ (Patch.path patch = "/" +:+ key ->
      patchKey patch = key /\ Patch.path (rebase patch) = "/")
  /\ (Patch.path patch = key ->
      patchKey patch = "undefined" /\ Patch.path (rebase patch) = "/")
  /\ Patch.op (rebase patch) = Patch.op patch
  /\ Patch.value (rebase patch) = Patch.value patch.
Proof.
  intros Hfree. unfold patchKey, rebase. cbn [Patch.path Patch.op Patch.value].
  split; [|split; [|split; [|split; reflexivity]]].
  - intros ->.
    change ("/" +:+ key +:+ "/" +:+ rest) with (String "/" (key +:+ String "/" rest)).
    cbn [split_on]. rewrite Ascii.eqb_refl, split_on_free by exact Hfree.
    cbn [nth_error skipn default].
    change (skipn 0 (split_on "/" rest)) with (split_on "/" rest).
    rewrite join_split_on. repeat split; reflexivity.
  - intros ->. change ("/" +:+ key) with (String "/" key).
    cbn [split_on]. rewrite Ascii.eqb_refl, split_on_whole by exact Hfree.
    split; reflexivity.
  - intros ->. rewrite split_on_whole by exact Hfree. split; reflexivity.
Qed.

Lemma collected_path_round_trip_witness :
  patchKey countPatch = "crawler"
  /\ Patch.path (rebase countPatch) = "/count"
  /\ "/" +:+ patchKey countPatch +:+ Patch.path (rebase countPatch)
     = Patch.path countPatch.
Proof.
  exact (proj1 (collected_path_round_trip countPatch "crawler" "count" eq_refl)
           eq_refl).
Defined.

(** ** The two revisions of the organisation filter *)

Lemma has_includes (x : string) (orgs : list string) :
  bool_decide (x ∈ (list_to_set orgs : gset string))
  = existsb (String.eqb x) orgs.
Proof.
  destruct (existsb (String.eqb x) orgs) eqn:Hin.
  - apply bool_decide_eq_true. apply elem_of_list_to_set, list_elem_of_In.
    apply existsb_eqb_In, Hin.
  - apply bool_decide_eq_false. intros Hset.
    apply elem_of_list_to_set, list_elem_of_In, existsb_eqb_In in Hset.
    congruence.
Qed.

(** X18. The earlier revision's [_configFilter] and [_shouldInclude] make
    the same decision, read the other way round, for every non-empty list
    of organisations: one filters exactly what the other does not include,
    and they throw on the same urls.  Without a list both let everything
    through.  They differ on the empty list: [_shouldInclude] includes
    everything, while [_configFilter] with an empty set never lets a [repo],
    [repos] or [org] request through. *)
Theorem configFilter_complements_shouldInclude
    (this : Crawler) (ty target : string) :
  let legacy organisations :=
    Legacy._configFilter {| Legacy.orgFilter := organisations |}
                         (URL_path this) ty target in
  legacy None = Fulfilled false
  /\ match orgList (options this) with
     | None => _shouldInclude this ty target = Fulfilled true
     | Some [] =>
         _shouldInclude this ty target = Fulfilled true
         /\ if orgScoped ty then legacy (Some ∅) <> Fulfilled false
            else legacy (Some ∅) = Fulfilled false
     | Some orgs =>
         legacy (Some (list_to_set orgs))
         = match _shouldInclude this ty target with
           | Fulfilled included => Fulfilled (negb included)
           | Rejected e => Rejected e
           end
     end.
Proof.
  cbv zeta. split; [reflexivity|].
  unfold _shouldInclude, Legacy._configFilter, orgScoped. cbn [Legacy.orgFilter].
  destruct (orgList (options this)) as [[|first others]|]; [| |reflexivity].
  - split; [reflexivity|].
    destruct (String.eqb ty "repo" || String.eqb ty "repos" || String.eqb ty "org");
      [|reflexivity].
    destruct (URL_path this target) as [path|]; [|discriminate].
    destruct (nth_error (split_on "/" path) 2) as [org|]; [|discriminate].
    rewrite bool_decide_eq_false_2 by set_solver. discriminate.
  - destruct (String.eqb ty "repo" || String.eqb ty "repos" || String.eqb ty "org");
      [|reflexivity].
    destruct (URL_path this target) as [path|]; [|reflexivity].
    destruct (nth_error (split_on "/" path) 2) as [org|]; [|reflexivity].
    rewrite has_includes. reflexivity.
Qed.
